(** * A shallow embedding of the v8engine bridge (part_000 + engine.go)

    The V8 engine itself is an external collaborator: it is modelled as a
    record of primitives ([V8]) and every definition of the bridge takes it
    as an argument.  The bridge's own state -- the fields of [m_ctx], the
    heap of [m_value]s, and the Go-side resolver table -- is one record
    [World] threaded through the operations. *)

From stdpp Require Import base gmap strings list pretty.
From Stdlib Require Import ZArith Lia.

Set Warnings "-register-all".
Open Scope string_scope.
Open Scope Z_scope.

(** ** Machine integers *)

(** Two's-complement wrap-around of a [w]-bit signed integer. *)
Definition wrap_signed (w : Z) (x : Z) : Z :=
  let m := 2 ^ w in
  let r := x mod m in
  if r >=? 2 ^ (w - 1) then r - m else r.

(** Go's [int] on a 64-bit target and C's [int]. *)
Definition go_int (x : Z) : Z := wrap_signed 64 x.
Definition c_int (x : Z) : Z := wrap_signed 32 x.

Definition max_go_int : Z := 2 ^ 63 - 1.

(** ** Values seen by the engine *)

Definition JSFunction := nat.

Inductive JSValue :=
| VFun (f : JSFunction)
| VBuffer (contents : list Byte.byte)   (** an [ArrayBuffer] view *)
| VOther (repr : string).

(** [v8::Message]: the script origin's resource name, line number and
    zero-indexed start column (each [Maybe<int>]). *)
Record Message := {
  msg_resource : string;
  msg_line : option Z;
  msg_start_column : option Z
}.

(** What a [TryCatch] holds once something was caught. *)
Record Caught := {
  caught_terminated : bool;           (** [HasTerminated()] *)
  caught_exception : string;          (** [Utf8Value(Exception())] *)
  caught_message : option Message;    (** [Message()], empty or not *)
  caught_stack : option string        (** [StackTrace(context)] *)
}.

(** Compiled units handed out by the engine. *)
Record Script := { script_source : string; script_origin : string }.

Record Module := {
  module_identity : Z;                 (** [GetIdentityHash()] *)
  module_requests : list string        (** [GetModuleRequest(i)] *)
}.

(** The engine primitives used by the bridge ([inl] = an exception was
    caught by the surrounding [TryCatch]). *)
Record V8 := {
  compile_script : string -> string -> Caught + Script;
  run_script : Script -> Caught + JSValue;
  compile_module : string -> string -> Caught + Module;
  instantiate_module : Module -> (Module -> string -> option Module) -> bool;
  evaluate_module : Module -> Caught + JSValue;
  call_function : JSFunction -> list JSValue -> Caught + JSValue
}.

(** ** Errors (part_000, [CopyString] and [ExceptionError]) *)

Record RtnError := {
  err_msg : option string;        (** [None] is [nullptr] *)
  err_location : option string;
  err_stack : option string
}.

Definition null_error : RtnError := {| err_msg := None; err_location := None; err_stack := None |}.

(** [CopyString(std::string)]: always a fresh, non-null copy. *)
Definition CopyString (s : string) : option string := Some s.

(** [CopyString(String::Utf8Value&)]: [nullptr] for an empty value. *)
Definition CopyStringUtf8 (s : string) : option string :=
  if (String.length s =? 0)%nat then None else CopyString s.

(** [sb << n] for an [int]. *)
Definition show_int (n : Z) : string := pretty n.

(** The location string built in the [ostringstream].  The column is an
    [int] below V8's string length limit, so [+ 1] does not overflow. *)
Definition format_location (m : Message) : string :=
  msg_resource m
  +:+ (match msg_line m with Some l => ":" +:+ show_int l | None => "" end)
  +:+ (match msg_start_column m with
       | Some c => ":" +:+ show_int (c + 1) | None => "" end).

Definition terminated_message : string :=
  "ExecutionTerminated: script execution has been terminated".

Definition ExceptionError (tc : Caught) : RtnError :=
  if caught_terminated tc then
    {| err_msg := CopyString terminated_message; err_location := None; err_stack := None |}
  else
    {| err_msg := CopyStringUtf8 (caught_exception tc);
       err_location := match caught_message tc with
                       | Some m => CopyString (format_location m)
                       | None => None
                       end;
       err_stack := match caught_stack tc with
                    | Some st => CopyStringUtf8 st
                    | None => None
                    end |}.

(** ** Bridge state *)

(** A host resolver ([ModuleResolverCallback]) is a Go closure; it may
    re-enter the engine by loading other modules before it answers.  Its
    behaviour on one call is a [ResolverAction]. *)
Inductive ResolverAction :=
| Answer (canon : string) (status : Z)
| NestedLoad (source name : string) (resolve : option (string -> string -> ResolverAction))
             (k : Z -> ResolverAction).

(** A Go [ModuleResolverCallback] value; [None] is a nil func. *)
Abbreviation GoResolver := (option (string -> string -> ResolverAction)).

(** Operations on the resolver table in [engine.go], in program order. *)
Inductive TableEvent :=
| Lock | Unlock
| Alloc (t : Z)      (** [nextResolverToken++] *)
| Put (t : Z)        (** [resolverFuncs[token] = resolve] *)
| Del (t : Z)        (** [delete(resolverFuncs, token)] *)
| Get (t : Z).       (** [resolverFuncs[resolverToken]] *)

(** [m_value]: the persistent handle and the back-pointer to its context. *)
Record MValue := { mv_ptr : option JSValue; mv_has_context : bool }.

Record World := {
  (* m_ctx *)
  w_modules : gmap string Module;
  w_resolved : gmap Z (gmap string Module);
  w_cb : option JSFunction;
  (* the C heap of m_value objects *)
  w_values : gmap Z MValue;
  w_next_addr : Z;
  (* engine.go globals *)
  w_funcs : gmap Z GoResolver;
  w_next_token : Z;
  w_table_log : list TableEvent;
  (* side effects *)
  w_stdout : list string;
  w_calls : list (JSFunction * list JSValue)
}.

Definition set_modules (m : gmap string Module) (w : World) : World :=
  {| w_modules := m; w_resolved := w_resolved w; w_cb := w_cb w;
     w_values := w_values w; w_next_addr := w_next_addr w;
     w_funcs := w_funcs w; w_next_token := w_next_token w;
     w_table_log := w_table_log w; w_stdout := w_stdout w; w_calls := w_calls w |}.

Definition set_resolved (r : gmap Z (gmap string Module)) (w : World) : World :=
  {| w_modules := w_modules w; w_resolved := r; w_cb := w_cb w;
     w_values := w_values w; w_next_addr := w_next_addr w;
     w_funcs := w_funcs w; w_next_token := w_next_token w;
     w_table_log := w_table_log w; w_stdout := w_stdout w; w_calls := w_calls w |}.

Definition set_cb (c : option JSFunction) (w : World) : World :=
  {| w_modules := w_modules w; w_resolved := w_resolved w; w_cb := c;
     w_values := w_values w; w_next_addr := w_next_addr w;
     w_funcs := w_funcs w; w_next_token := w_next_token w;
     w_table_log := w_table_log w; w_stdout := w_stdout w; w_calls := w_calls w |}.

Definition set_values (vs : gmap Z MValue) (next : Z) (w : World) : World :=
  {| w_modules := w_modules w; w_resolved := w_resolved w; w_cb := w_cb w;
     w_values := vs; w_next_addr := next;
     w_funcs := w_funcs w; w_next_token := w_next_token w;
     w_table_log := w_table_log w; w_stdout := w_stdout w; w_calls := w_calls w |}.

Definition set_table (fs : gmap Z GoResolver) (next : Z) (evs : list TableEvent) (w : World) : World :=
  {| w_modules := w_modules w; w_resolved := w_resolved w; w_cb := w_cb w;
     w_values := w_values w; w_next_addr := w_next_addr w;
     w_funcs := fs; w_next_token := next;
     w_table_log := w_table_log w ++ evs; w_stdout := w_stdout w; w_calls := w_calls w |}.

Definition log_table (evs : list TableEvent) (w : World) : World :=
  set_table (w_funcs w) (w_next_token w) evs w.

(** [printf("%s\n", s)].  The compiler turns it into [puts(s)], which
    dereferences a null [s]: [None] is that crash (undefined behaviour in C,
    the process does not go on). *)
Definition printf_line (s : option string) (w : World) : option World :=
  match s with
  | None => None
  | Some x =>
      Some {| w_modules := w_modules w; w_resolved := w_resolved w; w_cb := w_cb w;
              w_values := w_values w; w_next_addr := w_next_addr w;
              w_funcs := w_funcs w; w_next_token := w_next_token w;
              w_table_log := w_table_log w;
              w_stdout := w_stdout w ++ [x];
              w_calls := w_calls w |}
  end.

Definition record_call (f : JSFunction) (args : list JSValue) (w : World) : World :=
  {| w_modules := w_modules w; w_resolved := w_resolved w; w_cb := w_cb w;
     w_values := w_values w; w_next_addr := w_next_addr w;
     w_funcs := w_funcs w; w_next_token := w_next_token w;
     w_table_log := w_table_log w; w_stdout := w_stdout w;
     w_calls := w_calls w ++ [(f, args)] |}.

(** ** Scripts and values (part_000 [Run], [DisposeValue]; engine.go [Run]) *)

Record RtnValue := { rtn_value : option Z; rtn_error : RtnError }.

Definition Run (eng : V8) (source origin : string) (w : World) : RtnValue * World :=
  (* lSource and lOrigin are both built from [source]; [origin] is unused *)
  let lSource := source in
  let lOrigin := source in
  match compile_script eng lSource lOrigin with
  | inl tc => ({| rtn_value := None; rtn_error := ExceptionError tc |}, w)
  | inr script =>
      match run_script eng script with
      | inl tc => ({| rtn_value := None; rtn_error := ExceptionError tc |}, w)
      | inr v =>
          let p := w_next_addr w in
          let val := {| mv_ptr := Some v; mv_has_context := true |} in
          ({| rtn_value := Some p; rtn_error := null_error |},
           set_values (<[p := val]> (w_values w)) (p + 1) w)
      end
  end.

(** Go side. *)
Record GoValue := { gv_ptr : option Z }.

Record JSError := { Message_ : string; Location : string; StackTrace : string }.

(** [C.GoString] maps [nil] to the empty string. *)
Definition GoString (s : option string) : string :=
  match s with Some x => x | None => "" end.

Definition getValue (rtn : RtnValue) : option GoValue :=
  match rtn_value rtn with
  | None => None
  | Some p => Some {| gv_ptr := Some p |}
  end.

Definition getError (rtn : RtnValue) : option JSError :=
  match err_msg (rtn_error rtn) with
  | None => None
  | Some m => Some {| Message_ := m;
                      Location := GoString (err_location (rtn_error rtn));
                      StackTrace := GoString (err_stack (rtn_error rtn)) |}
  end.

Definition GoRun (eng : V8) (source origin : string) (w : World)
  : (option GoValue * option JSError) * World :=
  let '(rtn, w') := Run eng source origin w in
  ((getValue rtn, getError rtn), w').

(** [DisposeValue]: [None] when the pointer is dangling (use after free). *)
Definition DisposeValue (ptr : option Z) (w : World) : option World :=
  match ptr with
  | None => Some w
  | Some p =>
      match w_values w !! p with
      | None => None
      | Some val =>
          if negb (mv_has_context val) then Some w
          else Some (set_values (delete p (w_values w)) (w_next_addr w) w)
      end
  end.

(** The Go method [Value.finalizer]. *)
Definition Value_finalizer (v : GoValue) (w : World) : option (GoValue * World) :=
  match DisposeValue (gv_ptr v) w with
  | None => None
  | Some w' => Some ({| gv_ptr := None |}, w')
  end.

(** ** Module loading (part_000 [LoadModule], [ResolveCallback];
       engine.go [LoadModule], [ResolveModule]) *)

(** A nested call of the Go [LoadModule] method, as seen from a resolver. *)
Definition Loader := string -> string -> GoResolver -> World -> option (Z * World).

(** Running the resolver closure: nested loads, then its answer. *)
Fixpoint run_action (load : Loader) (a : ResolverAction) (w : World)
  : option (string * Z * World) :=
  match a with
  | Answer canon status => Some (canon, status, w)
  | NestedLoad src nm r k =>
      match load src nm r w with
      | None => None
      | Some (st, w') => run_action load (k st) w'
      end
  end.

(** A Go string passed through [C.CString] and read back as a C string:
    it ends at its first NUL byte. *)
Fixpoint c_string (s : string) : string :=
  match s with
  | EmptyString => EmptyString
  | String c rest => if Ascii.eqb c Ascii.zero then EmptyString else String c (c_string rest)
  end.

(** The exported Go [ResolveModule]: [(nil, 1)] when no resolver is
    registered under the token; otherwise the resolver's answer, its name
    through [C.CString] and its status converted with [C.int]. *)
Definition ResolveModule (load : Loader) (moduleSpecifier referrerSpecifier : string)
    (resolverToken : Z) (w : World) : option (option string * Z * World) :=
  let moduleName := moduleSpecifier in
  let referrerName := referrerSpecifier in
  let w1 := log_table [Lock; Get resolverToken; Unlock] w in
  match w_funcs w !! resolverToken with
  | None | Some None => Some (None, c_int 1, w1)
  | Some (Some resolve) =>
      match run_action load (resolve moduleName referrerName) w1 with
      | None => None
      | Some (canon, ret, w2) => Some (Some (c_string canon), c_int ret, w2)
      end
  end.

Definition ResolveModuleFn :=
  string -> string -> Z -> World -> option (option string * Z * World).

(** The [for] loop over [GetModuleRequest(i)]: [inl status] is an early
    [return], [inr resolved] the per-module resolution map. *)
Fixpoint resolve_requests (rm : ResolveModuleFn) (reqs : list string) (name_s : string)
    (callback_index : Z) (resolved : gmap string Module) (w : World)
  : option ((Z + gmap string Module) * World) :=
  match reqs with
  | [] => Some (inr resolved, w)
  | dependencySpecifier :: rest =>
      match rm dependencySpecifier name_s callback_index w with
      | None => None
      | Some (r0, r1, w') =>
          if negb (r1 =? 0) then Some (inl r1, w')
          else
            (* r0 is nil only together with status 1 *)
            match (match r0 with Some c => w_modules w' !! c | None => None end) with
            | None => Some (inl 2, w')
            | Some m =>
                resolve_requests rm rest name_s callback_index
                  (<[dependencySpecifier := m]> resolved) w'
            end
      end
  end.

(** [ResolveCallback]: answers from [ctx->resolved] only. *)
Definition ResolveCallback (w : World) (referrer : Module) (specifier : string) : option Module :=
  match w_resolved w !! module_identity referrer with
  | None => None
  | Some localResolve => localResolve !! specifier
  end.

(** The C function [LoadModule].  [None]: the call does not return (a
    nested load out of fuel, or [printf] of a null message crashing). *)
Definition LoadModule_c (rm : ResolveModuleFn) (eng : V8) (source_s name_s : string)
    (callback_index : Z) (w : World) : option (Z * World) :=
  match compile_module eng source_s name_s with
  | inl tc =>
      match printf_line (err_msg (ExceptionError tc)) w with
      | None => None
      | Some w' => Some (1, w')
      end
  | inr module =>
      match resolve_requests rm (module_requests module) name_s callback_index ∅ w with
      | None => None
      | Some (inl status, w') => Some (status, w')
      | Some (inr resolved, w') =>
          let w2 := set_resolved (<[module_identity module := resolved]> (w_resolved w'))
                      (set_modules (<[name_s := module]> (w_modules w')) w') in
          if negb (instantiate_module eng module (ResolveCallback w2)) then Some (3, w2)
          else
            match evaluate_module eng module with
            | inl tc =>
                match printf_line (err_msg (ExceptionError tc)) w2 with
                | None => None
                | Some w3 => Some (4, w3)
                end
            | inr _ => Some (0, w2)
            end
      end
  end.

(** The Go method [LoadModule]: allocate a token, register the resolver,
    call into C, unregister.  [fuel] bounds the nesting of loads started by
    resolvers; [None] means the bound was reached. *)
Fixpoint LoadModule (fuel : nat) (eng : V8) (source origin : string) (resolve : GoResolver)
    (w : World) : option (Z * World) :=
  match fuel with
  | O => None
  | S f =>
      let token := go_int (w_next_token w + 1) in
      let w1 := set_table (<[token := resolve]> (w_funcs w)) token
                  [Lock; Alloc token; Put token; Unlock] w in
      let cToken := c_int token in
      match LoadModule_c (ResolveModule (LoadModule f eng)) eng source origin cToken w1 with
      | None => None
      | Some (rtn, w2) =>
          Some (rtn, set_table (delete token (w_funcs w2)) (w_next_token w2)
                       [Lock; Del token; Unlock] w2)
      end
  end.

(** ** Message channel (part_000 [cb], [Send]; engine.go [Send]) *)

(** [V8Engine.cb(f)]: store [f] in [ctx->cb], replacing any previous one.
    [None] is the failed [assert(v->IsFunction())]. *)
Definition cb (arg0 : JSValue) (w : World) : option World :=
  match arg0 with
  | VFun func => Some (set_cb (Some func) w)
  | _ => None
  end.

(** The C function [Send]: the payload is wrapped, without copying, as the
    backing store of an [ArrayBuffer] passed as the only argument.  A status
    [None] is a crash in [printf], with the state reached at that point. *)
Definition Send (eng : V8) (data : list Byte.byte) (w : World) : option Z * World :=
  match w_cb w with
  | None => (Some 2, w)
  | Some f =>
      let args := [VBuffer data] in
      let w1 := record_call f args w in
      match call_function eng f args with
      | inl tc =>
          let err := ExceptionError tc in
          match printf_line (err_msg err) w1 with
          | None => (None, w1)
          | Some w2 =>
              match printf_line (err_stack err) w2 with
              | None => (None, w2)
              | Some w3 => (Some 3, w3)
              end
          end
      | inr _ => (Some 0, w1)
      end
  end.

(** The Go method [Send]: [C.CBytes] copies [msg]; a non-zero code becomes an
    error.  [None]: the C call crashed and the method does not return. *)
Definition GoSend (eng : V8) (msg : list Byte.byte) (w : World) : option (option string) * World :=
  let msgPointer := msg in
  match Send eng msgPointer w with
  | (None, w') => (None, w')
  | (Some code, w') =>
      if negb (code =? 0) then (Some (Some ("expected 0, got " +:+ show_int code)), w')
      else (Some None, w')
  end.

(** Scripts calling [V8Engine.cb] with the functions [fs], in order. *)
Fixpoint register_all (fs : list JSFunction) (w : World) : option World :=
  match fs with
  | [] => Some w
  | f :: rest =>
      match cb (VFun f) w with
      | Some w' => register_all rest w'
      | None => None
      end
  end.

(** ** Console output (part_000 [Fprint], [Print], [Log]) *)

(** The loop of [Fprint] over the arguments' [String::Utf8Value]s: a space
    before every argument but the first, then [fprintf(out, "%s", cstr)]
    with [cstr = CopyString(str)], [nullptr] for an empty string.  [None]:
    [fprintf] crashed on that [nullptr] (it becomes [fputs(NULL, out)]). *)
Fixpoint fprint_args (first : bool) (args : list string) : option string :=
  match args with
  | [] => Some ""
  | a :: rest =>
      match CopyStringUtf8 a with
      | None => None
      | Some cstr =>
          match fprint_args false rest with
          | None => None
          | Some tail => Some ((if first then "" else " ") +:+ cstr +:+ tail)
          end
      end
  end.

Definition newline : string := String (Ascii.ascii_of_nat 10) "".

(** Everything [Fprint] writes to [out]. *)
Definition Fprint (args : list string) : option string :=
  match fprint_args true args with
  | None => None
  | Some s => Some (s +:+ newline)
  end.

(** [V8Engine.print]: one line on standard output ([w_stdout] holds the
    lines written there, each ended by a newline). *)
Definition Print (args : list string) (w : World) : option World :=
  match fprint_args true args with
  | None => None
  | Some s =>
      Some {| w_modules := w_modules w; w_resolved := w_resolved w; w_cb := w_cb w;
              w_values := w_values w; w_next_addr := w_next_addr w;
              w_funcs := w_funcs w; w_next_token := w_next_token w;
              w_table_log := w_table_log w;
              w_stdout := w_stdout w ++ [s];
              w_calls := w_calls w |}
  end.

(** [V8Engine.log]: the text written to standard error. *)
Definition Log (args : list string) : option string := Fprint args.

(** ** Value strings (part_000 [ValueToString]; engine.go [Value.String]) *)

(** [ValueToString]: [None] when [ptr] or its context is null or dangling;
    [to_utf8] is [String::Utf8Value] of a value. *)
Definition ValueToString (to_utf8 : JSValue -> string) (ptr : option Z) (w : World)
  : option (option string) :=
  match ptr with
  | None => None
  | Some p =>
      match w_values w !! p with
      | None => None
      | Some val =>
          if negb (mv_has_context val) then None
          else match mv_ptr val with
               | None => None
               | Some value => Some (CopyStringUtf8 (to_utf8 value))
               end
      end
  end.

(** [Value.String]: [C.GoString] of the copy, which is then freed. *)
Definition Value_String (to_utf8 : JSValue -> string) (v : GoValue) (w : World) : option string :=
  match ValueToString to_utf8 (gv_ptr v) w with
  | None => None
  | Some s => Some (GoString s)
  end.

(** ** Go errors (engine.go [JSError.Error], [JSError.Format]) *)

Definition JSError_Error (e : JSError) : string := Message_ e.

(** The text [Format] writes for [verb] (a rune, as its code point);
    [plus] is [s.Flag('+')] and [quote] is what [fmt.Fprintf(s, "%q", _)]
    writes for a string.  Case ['v'] falls through to ['s']; other verbs
    write nothing. *)
Definition JSError_Format (quote : string -> string) (e : JSError) (plus : bool) (verb : Z) : string :=
  if verb =? 118 then
    if plus && negb (String.eqb (StackTrace e) "") then StackTrace e else Message_ e
  else if verb =? 115 then Message_ e
  else if verb =? 113 then quote (Message_ e)
  else "".

(** ** A concrete engine and state, for examples *)

Definition empty_world : World :=
  {| w_modules := ∅; w_resolved := ∅; w_cb := None;
     w_values := ∅; w_next_addr := 1;
     w_funcs := ∅; w_next_token := 0; w_table_log := [];
     w_stdout := []; w_calls := [] |}.

Definition boom_src : string := "throw new Error('boom')".
Definition empty_throw_src : string := "throw ''".
Definition line2_src : string := "1;" ++ String (Ascii.ascii_of_nat 10) "  throw 0".

Definition demo_run (sc : Script) : Caught + JSValue :=
  let o := script_origin sc in
  if String.eqb (script_source sc) boom_src then
    inl {| caught_terminated := false; caught_exception := "Error: boom";
           caught_message := Some {| msg_resource := o; msg_line := Some 1;
                                     msg_start_column := Some 0 |};
           caught_stack := Some ("Error: boom" +:+ "    at " +:+ o +:+ ":1:7") |}
  else if String.eqb (script_source sc) empty_throw_src then
    inl {| caught_terminated := false; caught_exception := "";
           caught_message := Some {| msg_resource := o; msg_line := Some 1;
                                     msg_start_column := Some 0 |};
           caught_stack := None |}
  else if String.eqb (script_source sc) line2_src then
    inl {| caught_terminated := false; caught_exception := "0";
           caught_message := Some {| msg_resource := o; msg_line := Some 2;
                                     msg_start_column := Some 2 |};
           caught_stack := None |}
  else if String.eqb (script_source sc) "1+1" then inr (VOther "2")
  else inr (VOther "undefined").

Definition syntax_error (o : string) : Caught :=
  {| caught_terminated := false; caught_exception := "SyntaxError: Unexpected end of input";
     caught_message := Some {| msg_resource := o; msg_line := Some 1; msg_start_column := Some 12 |};
     caught_stack := None |}.

Definition bad_src : string := "syntax error(".
Definition a_src : string := "export const x = 1;".
Definition imports_b_src : string := "import 'b.js';".

(** Modules: [imports_b_src] imports ["b.js"]; identities are distinct
    per source text. *)
Definition demo_compile_module (src nm : string) : Caught + Module :=
  if String.eqb src bad_src then inl (syntax_error nm)
  else inr {| module_identity := Z.of_nat (String.length src);
              module_requests := if String.eqb src imports_b_src then ["b.js"] else [] |}.

(** Instantiation succeeds when the callback answers every request. *)
Definition demo_instantiate (m : Module) (rc : Module -> string -> option Module) : bool :=
  forallb (fun r => if rc m r then true else false) (module_requests m).

(** Function 13 throws an [Error] when called, function 14 throws the
    string ['cb'], which carries no stack trace. *)
Definition cb_error : Caught :=
  {| caught_terminated := false; caught_exception := "Error: cb";
     caught_message := None; caught_stack := Some "Error: cb" |}.

Definition cb_string : Caught :=
  {| caught_terminated := false; caught_exception := "cb";
     caught_message := None; caught_stack := None |}.

Definition demo_call (f : JSFunction) (args : list JSValue) : Caught + JSValue :=
  if (f =? 13)%nat then inl cb_error
  else if (f =? 14)%nat then inl cb_string
  else inr (VOther "undefined").

Definition demo_engine : V8 :=
  {| compile_script := fun s o =>
       if String.eqb s bad_src then inl (syntax_error o)
       else inr {| script_source := s; script_origin := o |};
     run_script := demo_run;
     compile_module := demo_compile_module;
     instantiate_module := demo_instantiate;
     evaluate_module := fun _ => inr (VOther "undefined");
     call_function := demo_call |}.

(** Resolvers. *)
Definition resolve_to (canon : string) (status : Z) : GoResolver :=
  Some (fun _ _ => Answer canon status).

(** The table holding [r] under token 1 alone. *)
Definition world_tok1 (r : GoResolver) (w : World) : World := set_table {[1 := r]} 1 [] w.

(** The module compiled from [imports_b_src]. *)
Definition imports_b_module : Module :=
  {| module_identity := 14; module_requests := ["b.js"] |}.

Example run_1_plus_1 :
  (let '((v, e), w) := GoRun demo_engine "1+1" "test.js" empty_world in
   (v, e, mv_ptr <$> (w_values w !! 1))) = (Some {| gv_ptr := Some 1 |}, None, Some (Some (VOther "2"))).
Proof. reflexivity. Qed.

Example load_a :
  option_map fst (LoadModule 3 demo_engine a_src "a.js" None empty_world) = Some 0.
Proof. vm_compute. reflexivity. Qed.

(** * Properties *)

(** ** Error marshalling *)

(** The segments of a location string, as the claim describes them: the
    colon-separated line, and the column made one-indexed. *)
Definition line_segment (l : option Z) : string :=
  match l with Some n => ":" +:+ show_int n | None => "" end.

Definition column_segment (c : option Z) : string :=
  match c with Some n => ":" +:+ show_int (n + 1) | None => "" end.

Lemma show_int_2 : show_int 2 = "2".
Proof. vm_compute. reflexivity. Qed.

Lemma show_int_3 : show_int 3 = "3".
Proof. vm_compute. reflexivity. Qed.

(** C6: a termination gives the fixed message, no location and no stack;
    otherwise, with a diagnostic message, the location is
    [origin(:line)(:column+1)] with the unavailable segments left out, and
    it is absent without one; line 2 and zero-indexed column 2 (third
    character) end the location with [":2:3"]. *)
Theorem ExceptionError_format (tc : Caught) :
  (caught_terminated tc = true ->
   ExceptionError tc = {| err_msg := Some terminated_message;
                          err_location := None; err_stack := None |}) /\
  (caught_terminated tc = false ->
   err_location (ExceptionError tc) =
     (fun m => msg_resource m +:+ line_segment (msg_line m)
               +:+ column_segment (msg_start_column m)) <$> caught_message tc) /\
  (forall m, caught_terminated tc = false -> caught_message tc = Some m ->
   msg_line m = Some 2 -> msg_start_column m = Some 2 ->
   err_location (ExceptionError tc) = Some (msg_resource m +:+ ":2:3")).
Proof.
  unfold ExceptionError. split; [|split].
  - intros ->. reflexivity.
  - intros ->. destruct (caught_message tc) as [m|]; reflexivity.
  - intros m Ht Hm Hl Hc. rewrite Ht, Hm. cbn [CopyString fmap option_fmap option_map].
    unfold format_location. rewrite Hl, Hc.
    replace (2 + 1) with 3 by lia. rewrite show_int_2, show_int_3. reflexivity.
Qed.

Definition line2_caught : Caught :=
  {| caught_terminated := false; caught_exception := "0";
     caught_message := Some {| msg_resource := "test.js"; msg_line := Some 2;
                               msg_start_column := Some 2 |};
     caught_stack := None |}.

Lemma ExceptionError_format_witness :
  err_location (ExceptionError line2_caught) = Some ("test.js" +:+ ":2:3") /\
  ExceptionError {| caught_terminated := true; caught_exception := "x";
                    caught_message := None; caught_stack := Some "s" |}
  = {| err_msg := Some terminated_message; err_location := None; err_stack := None |}.
Proof.
  split.
  - exact (proj2 (proj2 (ExceptionError_format line2_caught)) _ eq_refl eq_refl eq_refl eq_refl).
  - apply (proj1 (ExceptionError_format _)). reflexivity.
Defined.

(** ** Running scripts *)

(** [Run] never looks at [origin]: the script is compiled with its own source
    text as origin name. *)
Lemma Run_ignores_origin (eng : V8) (source o1 o2 : string) (w : World) :
  Run eng source o1 w = Run eng source o2 w.
Proof. reflexivity. Qed.

(** C1: with an engine that reports the script origin in its messages, the
    error of [Run(ctx, "throw new Error('boom')", "test.js")] carries the
    location ["throw new Error('boom'):1:1"], which does not mention
    ["test.js"]. *)
Theorem Run_boom_location_misses_origin :
  let '((v, e), _) := GoRun demo_engine boom_src "test.js" empty_world in
  v = None /\
  (Location <$> e) = Some (boom_src +:+ ":1:1") /\
  String.index 0 "test.js" (boom_src +:+ ":1:1") = None.
Proof. vm_compute. repeat split. Qed.

(** An exception whose string form is empty is dropped: [CopyStringUtf8]
    returns [nullptr] for the message and [getError] reads a null message as
    "no error". *)
Lemma Run_empty_exception_lost (eng : V8) (source origin : string) (sc : Script)
    (tc : Caught) (w : World) :
  compile_script eng source source = inr sc ->
  run_script eng sc = inl tc ->
  caught_terminated tc = false ->
  caught_exception tc = "" ->
  GoRun eng source origin w = ((None, None), w).
Proof.
  intros Hc Hr Ht He. unfold GoRun, Run. rewrite Hc, Hr.
  unfold getValue, getError, ExceptionError. cbn. rewrite Ht, He. reflexivity.
Qed.

(** C7: [throw ''] fails at run time, yet [Run] returns neither a value nor
    an error. *)
Theorem Run_throw_empty_string_no_error :
  GoRun demo_engine empty_throw_src "test.js" empty_world = ((None, None), empty_world).
Proof. vm_compute. reflexivity. Qed.

(** ** Value disposal *)

(** C9: disposing a null handle changes nothing, and a handle whose
    disposal succeeded is nulled, so disposing it again changes nothing. *)
Theorem Value_finalizer_idempotent :
  (forall w, Value_finalizer {| gv_ptr := None |} w = Some ({| gv_ptr := None |}, w)) /\
  (forall v w v1 w1, Value_finalizer v w = Some (v1, w1) ->
   Value_finalizer v1 w1 = Some (v1, w1)).
Proof.
  split.
  - intros w. reflexivity.
  - intros v w v1 w1 H. unfold Value_finalizer in H.
    destruct (DisposeValue (gv_ptr v) w) as [w'|]; [|discriminate].
    injection H as <- <-. reflexivity.
Qed.

(** A handle returned by a successful [Run] can be disposed. *)
Lemma Value_finalizer_after_Run (eng : V8) (source origin : string) (w w' : World) (v : GoValue) e :
  GoRun eng source origin w = ((Some v, e), w') ->
  exists w'', Value_finalizer v w' = Some ({| gv_ptr := None |}, w'').
Proof.
  unfold GoRun, Run. destruct (compile_script eng source source) as [tc|sc]; [discriminate|].
  destruct (run_script eng sc) as [tc|jv]; [discriminate|].
  cbn. intros H. injection H as <- _ <-. unfold Value_finalizer, DisposeValue. cbn.
  rewrite lookup_insert_eq. cbn. eexists. reflexivity.
Qed.

Lemma Value_finalizer_idempotent_witness :
  match Value_finalizer {| gv_ptr := Some 1 |} (snd (GoRun demo_engine "1+1" "t.js" empty_world)) with
  | Some (v1, w1) => Value_finalizer v1 w1 = Some (v1, w1)
  | None => False
  end.
Proof.
  destruct (Value_finalizer {| gv_ptr := Some 1 |} (snd (GoRun demo_engine "1+1" "t.js" empty_world)))
    as [[v1 w1]|] eqn:E.
  - exact (proj2 Value_finalizer_idempotent _ _ _ _ E).
  - vm_compute in E. discriminate E.
Defined.

(** ** Message channel *)

(** [printf] of a present string appends one line and changes nothing else. *)
Lemma printf_line_frame (s : option string) (w w' : World) :
  printf_line s w = Some w' ->
  w_modules w' = w_modules w /\ w_resolved w' = w_resolved w /\ w_funcs w' = w_funcs w /\
  w_next_token w' = w_next_token w /\ w_table_log w' = w_table_log w /\
  w_calls w' = w_calls w /\ exists x, s = Some x /\ w_stdout w' = (w_stdout w ++ [x])%list.
Proof.
  destruct s as [x|]; [|discriminate]. intros H. injection H as <-. cbn.
  do 6 (split; [reflexivity|]). exists x. split; reflexivity.
Qed.

(** C4 as the code does it: with an empty callback slot [Send] returns 2
    for every payload, and when the callback returns it returns 0.  When the
    callback throws, [Send] prints the message and then the stack with
    [printf("%s\n", ...)]: it returns 3, having printed both, when the
    exception (not a termination) has a non-empty string form and a
    non-empty stack trace; otherwise one of the two is [nullptr], [printf]
    crashes on it, and [Send] does not return (the callback has been
    called). *)
Theorem Send_status (eng : V8) (data : list Byte.byte) (w : World) :
  (w_cb w = None -> Send eng data w = (Some 2, w)) /\
  (forall f v, w_cb w = Some f -> call_function eng f [VBuffer data] = inr v ->
   Send eng data w = (Some 0, record_call f [VBuffer data] w)) /\
  (forall f tc st, w_cb w = Some f -> call_function eng f [VBuffer data] = inl tc ->
   caught_terminated tc = false -> caught_exception tc <> "" ->
   caught_stack tc = Some st -> st <> "" ->
   fst (Send eng data w) = Some 3 /\
   w_stdout (snd (Send eng data w)) = (w_stdout w ++ [caught_exception tc; st])%list) /\
  (forall f tc, w_cb w = Some f -> call_function eng f [VBuffer data] = inl tc ->
   (caught_terminated tc = true \/ caught_exception tc = "" \/
    caught_stack tc = None \/ caught_stack tc = Some "") ->
   fst (Send eng data w) = None /\
   w_calls (snd (Send eng data w)) = (w_calls w ++ [(f, [VBuffer data])])%list).
Proof.
  unfold Send. split; [|split; [|split]].
  - intros ->. reflexivity.
  - intros f v Hf Hc. rewrite Hf, Hc. reflexivity.
  - intros f tc st Hf Hc Ht He Hs Hst. rewrite Hf, Hc. unfold ExceptionError. rewrite Ht, Hs.
    destruct (caught_exception tc) as [|a e]; [congruence|].
    destruct st as [|b st]; [congruence|].
    cbn. split; [reflexivity|]. rewrite <- app_assoc. reflexivity.
  - intros f tc Hf Hc Hcase. rewrite Hf, Hc. unfold ExceptionError.
    destruct (caught_terminated tc); [cbn; split; reflexivity|].
    destruct Hcase as [Ht|[He|[Hs|Hs]]].
    + discriminate Ht.
    + rewrite He. cbn. split; reflexivity.
    + rewrite Hs. destruct (caught_exception tc); cbn; split; reflexivity.
    + rewrite Hs. destruct (caught_exception tc); cbn; split; reflexivity.
Qed.

Lemma register_all_app (fs gs : list JSFunction) (w : World) :
  register_all (fs ++ gs) w = (register_all fs w ≫= register_all gs).
Proof.
  revert w. induction fs as [|f fs IH]; intros w; [reflexivity|].
  cbn. apply IH.
Qed.

Lemma register_all_calls (fs : list JSFunction) (w : World) :
  exists w', register_all fs w = Some w' /\ w_calls w' = w_calls w.
Proof.
  revert w. induction fs as [|f fs IH]; intros w.
  - exists w. split; reflexivity.
  - cbn. destruct (IH (set_cb (Some f) w)) as (w' & Hw' & Hc).
    exists w'. split; [exact Hw'|]. rewrite Hc. reflexivity.
Qed.

(** C5: after registering [fs] and then [f], the slot holds [f] alone, and
    [Send] with [msg] records exactly one new invocation: of [f], with one
    buffer whose contents are [msg]. *)
Theorem Send_invokes_last_registered (eng : V8) (fs : list JSFunction) (f : JSFunction)
    (msg : list Byte.byte) (w : World) :
  exists w1, register_all (fs ++ [f]) w = Some w1 /\
    w_cb w1 = Some f /\
    w_calls (snd (GoSend eng msg w1)) = (w_calls w ++ [(f, [VBuffer msg])])%list.
Proof.
  destruct (register_all_calls fs w) as (w0 & H0 & Hc0).
  exists (set_cb (Some f) w0). rewrite register_all_app, H0. cbn.
  split; [reflexivity|]. split; [reflexivity|].
  unfold GoSend, Send. cbn [w_cb set_cb].
  destruct (call_function eng f [VBuffer msg]) as [tc|v].
  - destruct (printf_line (err_msg (ExceptionError tc)) _) as [w2|] eqn:E2.
    + destruct (printf_line_frame _ _ _ E2) as (_ & _ & _ & _ & _ & H2 & _).
      destruct (printf_line (err_stack (ExceptionError tc)) w2) as [w3|] eqn:E3.
      * destruct (printf_line_frame _ _ _ E3) as (_ & _ & _ & _ & _ & H3 & _).
        cbn. rewrite H3, H2. cbn. rewrite Hc0. reflexivity.
      * cbn. rewrite H2. cbn. rewrite Hc0. reflexivity.
    + cbn. rewrite Hc0. reflexivity.
  - cbn. rewrite Hc0. reflexivity.
Qed.

Lemma Send_status_witness :
  Send demo_engine [Byte.x01; Byte.x02] empty_world = (Some 2, empty_world) /\
  Send demo_engine [Byte.x01] (set_cb (Some 7%nat) empty_world)
    = (Some 0, record_call 7%nat [VBuffer [Byte.x01]] (set_cb (Some 7%nat) empty_world)) /\
  fst (Send demo_engine [Byte.x01] (set_cb (Some 13%nat) empty_world)) = Some 3 /\
  fst (Send demo_engine [Byte.x01] (set_cb (Some 14%nat) empty_world)) = None.
Proof.
  split; [|split; [|split]].
  - apply (proj1 (Send_status demo_engine [Byte.x01; Byte.x02] empty_world)). reflexivity.
  - exact (proj1 (proj2 (Send_status demo_engine [Byte.x01] (set_cb (Some 7%nat) empty_world)))
             7%nat _ eq_refl eq_refl).
  - assert (He : caught_exception cb_error <> "") by discriminate.
    assert (Hs : "Error: cb" <> "") by discriminate.
    exact (proj1 (proj1 (proj2 (proj2 (Send_status demo_engine [Byte.x01]
                                         (set_cb (Some 13%nat) empty_world))))
                   13%nat cb_error "Error: cb" eq_refl eq_refl eq_refl He eq_refl Hs)).
  - exact (proj1 (proj2 (proj2 (proj2 (Send_status demo_engine [Byte.x01]
                                         (set_cb (Some 14%nat) empty_world))))
                   14%nat cb_string eq_refl eq_refl (or_intror (or_intror (or_introl eq_refl))))).
Defined.

(** ** Module loading: statuses *)

(** The lookup [ctx->modules.count(retval.r0)] on the resolver's answer. *)
Definition known_module (w : World) (r0 : option string) : option Module :=
  match r0 with Some c => w_modules w !! c | None => None end.

(** A property of worlds kept by every resolution step is kept by the loop. *)
Lemma resolve_requests_inv (P : World -> Prop) (rm : ResolveModuleFn) (reqs : list string)
    (name : string) (idx : Z) (resolved : gmap string Module) (w w' : World) res :
  (forall d w0 r0 s w0', P w0 -> rm d name idx w0 = Some (r0, s, w0') -> P w0') ->
  P w ->
  resolve_requests rm reqs name idx resolved w = Some (res, w') -> P w'.
Proof.
  intros Hstep. revert resolved w. induction reqs as [|d rest IH]; intros resolved w Hw H.
  - cbn in H. injection H as _ <-. exact Hw.
  - cbn in H. destruct (rm d name idx w) as [[[r0 r1] w1]|] eqn:Erm; [|discriminate].
    pose proof (Hstep _ _ _ _ _ Hw Erm) as Hw1.
    destruct (negb (r1 =? 0)); [injection H as _ <-; exact Hw1|].
    destruct (match r0 with Some c => w_modules w1 !! c | None => None end);
      [exact (IH _ _ Hw1 H)|injection H as _ <-; exact Hw1].
Qed.

(** [ResolveModule]: either no resolver is registered under the token and
    the answer is [(nil, 1)] with nothing but the table lookup done, or the
    resolver's answer is returned with its status converted by [C.int]. *)
Lemma ResolveModule_cases (load : Loader) (spec ref : string) (tok : Z) (w w' : World)
    (r0 : option string) (s : Z) :
  ResolveModule load spec ref tok w = Some (r0, s, w') ->
  (r0 = None /\ s = 1 /\ w' = log_table [Lock; Get tok; Unlock] w /\
   (w_funcs w !! tok = None \/ w_funcs w !! tok = Some None)) \/
  (exists f canon ret, w_funcs w !! tok = Some (Some f) /\
     run_action load (f spec ref) (log_table [Lock; Get tok; Unlock] w) = Some (canon, ret, w') /\
     r0 = Some (c_string canon) /\ s = c_int ret).
Proof.
  unfold ResolveModule. destruct (w_funcs w !! tok) as [[f|]|] eqn:E.
  - destruct (run_action load (f spec ref) _) as [[[canon ret] w2]|] eqn:Er; [|discriminate].
    intros H. injection H as <- <- <-. right. exists f, canon, ret. auto.
  - intros H. injection H as <- <- <-. left. auto.
  - intros H. injection H as <- <- <-. left. auto.
Qed.

(** The dependencies [pre], resolved one after the other by the loop from
    [w] to [w']: each answered with status 0 and the name of a registered
    module. *)
Inductive resolved_prefix (rm : ResolveModuleFn) (name : string) (idx : Z)
  : list string -> World -> World -> Prop :=
| resolved_nil (w : World) : resolved_prefix rm name idx [] w w
| resolved_cons (d : string) (rest : list string) (w w1 w2 : World) (c : string) (m : Module) :
    rm d name idx w = Some (Some c, 0, w1) ->
    w_modules w1 !! c = Some m ->
    resolved_prefix rm name idx rest w1 w2 ->
    resolved_prefix rm name idx (d :: rest) w w2.



(** Conversely, the loop goes through a resolved prefix without stopping. *)
Lemma resolve_requests_prefix (rm : ResolveModuleFn) (pre rest : list string) (name : string)
    (idx : Z) (res0 : gmap string Module) (w w1 : World) :
  resolved_prefix rm name idx pre w w1 ->
  exists res1, resolve_requests rm (pre ++ rest) name idx res0 w
               = resolve_requests rm rest name idx res1 w1.
Proof.
  intros Hp. revert res0.
  induction Hp as [w|d pre' w0 w1' w2 c m Hr Hm Hp IH]; intros res0.
  - exists res0. reflexivity.
  - cbn [app resolve_requests]. rewrite Hr. cbn [negb Z.eqb]. rewrite Hm. apply IH.
Qed.




(** ** A missing resolver *)

(** C10 as the code does it: with no resolver (or a nil one) under the
    token, [ResolveModule] answers [(nil, 1)] and does nothing but the
    locked lookup; a load whose module has at least one dependency then
    stops at the first one with status 1, again with no resolver run; a
    load whose module has no dependencies never consults the table: its
    outcome is the same whatever the resolution function. *)
Theorem ResolveModule_missing_token :
  (forall (load : Loader) (spec ref : string) (tok : Z) (w : World),
   (w_funcs w !! tok = None \/ w_funcs w !! tok = Some None) ->
   ResolveModule load spec ref tok w = Some (None, 1, log_table [Lock; Get tok; Unlock] w)) /\
  (forall (load : Loader) (eng : V8) (src name : string) (tok : Z) (w : World) (m : Module),
   compile_module eng src name = inr m -> module_requests m <> [] ->
   (w_funcs w !! tok = None \/ w_funcs w !! tok = Some None) ->
   LoadModule_c (ResolveModule load) eng src name tok w
     = Some (1, log_table [Lock; Get tok; Unlock] w)) /\
  (forall (rm1 rm2 : ResolveModuleFn) (eng : V8) (src name : string) (tok : Z) (w : World)
     (m : Module),
   compile_module eng src name = inr m -> module_requests m = [] ->
   LoadModule_c rm1 eng src name tok w = LoadModule_c rm2 eng src name tok w).
Proof.
  assert (Hres : forall (load : Loader) (spec ref : string) (tok : Z) (w : World),
    (w_funcs w !! tok = None \/ w_funcs w !! tok = Some None) ->
    ResolveModule load spec ref tok w = Some (None, 1, log_table [Lock; Get tok; Unlock] w)).
  { intros load spec ref tok w [H|H]; unfold ResolveModule; rewrite H; reflexivity. }
  split; [exact Hres|]. split.
  - intros load eng src name tok w m Hc Hreq Htok. unfold LoadModule_c. rewrite Hc.
    destruct (module_requests m) as [|d rest]; [contradiction|].
    cbn [resolve_requests]. rewrite (Hres _ _ _ _ _ Htok). reflexivity.
  - intros rm1 rm2 eng src name tok w m Hc Hreq. unfold LoadModule_c. rewrite Hc, Hreq.
    reflexivity.
Qed.

Lemma ResolveModule_missing_token_witness :
  LoadModule_c (ResolveModule (LoadModule 2 demo_engine)) demo_engine imports_b_src "a.js" 42
    empty_world = Some (1, log_table [Lock; Get 42; Unlock] empty_world).
Proof.
  apply (proj1 (proj2 ResolveModule_missing_token) _ _ _ _ _ _
           {| module_identity := 14; module_requests := ["b.js"] |}).
  - reflexivity.
  - discriminate.
  - left. reflexivity.
Defined.

(** Against C10: a load without dependencies never consults the table, so a
    missing association does not make it fail. *)
Lemma ResolveModule_missing_token_counterexample :
  w_funcs empty_world !! 42 = None /\
  option_map fst (LoadModule_c (ResolveModule (LoadModule 2 demo_engine)) demo_engine
                    a_src "a.js" 42 empty_world) = Some 0.
Proof. split; vm_compute; reflexivity. Qed.

(** The association goes missing in practice once the Go token no longer
    fits a C [int]: [C.int(token)] wraps and the lookup under the wrapped
    value fails.  Here [b.js] is registered and the resolver would answer
    it with status 0, yet the load fails with status 1 after 2^31 - 1
    earlier loads. *)
Definition set_next_token (n : Z) (w : World) : World := set_table (w_funcs w) n [] w.

Definition world_with_b : World :=
  match LoadModule 2 demo_engine a_src "b.js" None empty_world with
  | Some (_, w) => w
  | None => empty_world
  end.

Example LoadModule_token_truncation :
  option_map fst (LoadModule 3 demo_engine imports_b_src "a.js" (resolve_to "b.js" 0)
                    (set_next_token 5 world_with_b)) = Some 0 /\
  option_map fst (LoadModule 3 demo_engine imports_b_src "a.js" (resolve_to "b.js" 0)
                    (set_next_token (2 ^ 31 - 1) world_with_b)) = Some 1.
Proof. split; vm_compute; reflexivity. Qed.

(** ** Unresolvable dependencies *)

(** Resolution steps that leave the registry alone keep it along a
    resolved prefix. *)
Lemma resolved_prefix_modules (rm : ResolveModuleFn) (name : string) (idx : Z)
    (pre : list string) (w w1 : World) :
  (forall d w0 r0 s w0', rm d name idx w0 = Some (r0, s, w0') -> w_modules w0' = w_modules w0) ->
  resolved_prefix rm name idx pre w w1 -> w_modules w1 = w_modules w.
Proof.
  intros Hkeep Hp. induction Hp as [w|d pre' w0 w1' w2 c m Hr Hm Hp IH]; [reflexivity|].
  rewrite IH. exact (Hkeep _ _ _ _ _ Hr).
Qed.

(** C3 as the code does it: when a module compiles and, after the
    dependencies [pre] resolved to registered modules, the dependency [d]
    cannot be resolved ([ResolveModule] reports a non-zero status, or a name
    absent from the registry), the C [LoadModule] returns right after that
    answer, with that status as is or 2 for an absent name, never 0, and
    adds nothing to the registry itself: when no resolution step changes
    the registry (no resolver loads modules), the registry is unchanged. *)
Theorem LoadModule_unresolved_dependency (rm : ResolveModuleFn) (eng : V8) (src name : string)
    (idx : Z) (w : World) (m : Module) (pre post : list string) (d : string)
    (w1 w2 : World) (r0 : option string) (s : Z) :
  compile_module eng src name = inr m ->
  module_requests m = (pre ++ d :: post)%list ->
  resolved_prefix rm name idx pre w w1 ->
  rm d name idx w1 = Some (r0, s, w2) ->
  (s <> 0 \/ known_module w2 r0 = None) ->
  LoadModule_c rm eng src name idx w = Some (if s =? 0 then 2 else s, w2) /\
  (if s =? 0 then 2 else s) <> 0 /\
  ((forall d' w0 r0' s' w0', rm d' name idx w0 = Some (r0', s', w0') ->
      w_modules w0' = w_modules w0) ->
   w_modules w2 = w_modules w).
Proof.
  intros Hc Hreq Hp Hd Hbad. split; [|split].
  - unfold LoadModule_c. rewrite Hc, Hreq.
    destruct (resolve_requests_prefix _ _ (d :: post) _ _ ∅ _ _ Hp) as [res1 ->].
    cbn [resolve_requests]. rewrite Hd.
    destruct (Z.eqb_spec s 0) as [->|Hs]; cbn [negb].
    + destruct Hbad as [Hbad|Hbad]; [congruence|]. unfold known_module in Hbad.
      rewrite Hbad. reflexivity.
    + reflexivity.
  - destruct (Z.eqb_spec s 0); [discriminate|assumption].
  - intros Hkeep. rewrite (Hkeep _ _ _ _ _ Hd). exact (resolved_prefix_modules _ _ _ _ _ _ Hkeep Hp).
Qed.

Lemma LoadModule_unresolved_dependency_witness :
  LoadModule_c (ResolveModule (LoadModule 2 demo_engine)) demo_engine imports_b_src "a.js" 1
      (world_tok1 (resolve_to "b.js" 5) empty_world)
    = Some (5, log_table [Lock; Get 1; Unlock] (world_tok1 (resolve_to "b.js" 5) empty_world)).
Proof.
  assert (H5 : 5 <> 0) by discriminate.
  exact (proj1 (LoadModule_unresolved_dependency (ResolveModule (LoadModule 2 demo_engine))
                  demo_engine imports_b_src "a.js" 1 (world_tok1 (resolve_to "b.js" 5) empty_world)
                  imports_b_module [] [] "b.js" (world_tok1 (resolve_to "b.js" 5) empty_world)
                  (log_table [Lock; Get 1; Unlock] (world_tok1 (resolve_to "b.js" 5) empty_world))
                  (Some "b.js") 5 eq_refl eq_refl (resolved_nil _ _ _ _) eq_refl (or_introl H5))).
Defined.

(** A resolver that loads ["c.js"] itself and then fails with status 5. *)
Definition loads_c_then_fails : GoResolver :=
  Some (fun _ _ => NestedLoad a_src "c.js" None (fun _ => Answer "b.js" 5)).

(** Against C3: the resolver's status 5 is returned as is, neither 1 nor 2;
    and a resolver that loads ["c.js"] before answering 5 leaves ["c.js"]
    registered after the failed load. *)
Lemma LoadModule_unresolved_dependency_counterexample :
  option_map fst (LoadModule 3 demo_engine imports_b_src "a.js" (resolve_to "b.js" 5) empty_world)
    = Some 5 /\
  w_modules empty_world !! "c.js" = None /\
  match LoadModule 3 demo_engine imports_b_src "a.js" loads_c_then_fails empty_world with
  | Some (st, w') => st = 5 /\ is_Some (w_modules w' !! "c.js")
  | None => False
  end.
Proof.
  split; [vm_compute; reflexivity|]. split; [reflexivity|].
  vm_compute. split; [reflexivity|]. eexists. reflexivity.
Qed.

(** ** Resolver tokens *)

(** Replaying the table log against [resolverTableLock]: [None] when an
    operation on the table happens without the lock, or the lock is taken
    twice or released while free; otherwise whether it is held at the end. *)
Fixpoint lock_run (held : bool) (evs : list TableEvent) : option bool :=
  match evs with
  | [] => Some held
  | Lock :: rest => if held then None else lock_run true rest
  | Unlock :: rest => if held then lock_run false rest else None
  | (Alloc _ | Put _ | Del _ | Get _) :: rest => if held then lock_run held rest else None
  end.

(** The tokens allocated, in order. *)
Fixpoint allocs (evs : list TableEvent) : list Z :=
  match evs with
  | [] => []
  | Alloc t :: rest => t :: allocs rest
  | _ :: rest => allocs rest
  end.

(** Top-level [LoadModule] calls one after the other. *)
Fixpoint LoadModules (fuel : nat) (eng : V8) (calls : list (string * string * GoResolver))
    (w : World) : option (list Z * World) :=
  match calls with
  | [] => Some ([], w)
  | (src, nm, r) :: rest =>
      match LoadModule fuel eng src nm r w with
      | None => None
      | Some (st, w1) =>
          match LoadModules fuel eng rest w1 with
          | None => None
          | Some (sts, w2) => Some (st :: sts, w2)
          end
      end
  end.

Definition go_int_range (c : Z) : Prop := - 2 ^ 63 <= c <= max_go_int.

Lemma wrap_signed_mod (x : Z) : go_int x mod 2 ^ 64 = x mod 2 ^ 64.
Proof.
  unfold go_int, wrap_signed.
  destruct (x mod 2 ^ 64 >=? 2 ^ (64 - 1)).
  - rewrite Zminus_mod, Z_mod_same_full, Z.mod_mod by lia. rewrite Z.sub_0_r, Z.mod_mod by lia.
    reflexivity.
  - apply Z.mod_mod. lia.
Qed.

Lemma go_int_mod_eq (x y : Z) : x mod 2 ^ 64 = y mod 2 ^ 64 -> go_int x = go_int y.
Proof. intros H. unfold go_int, wrap_signed. rewrite H. reflexivity. Qed.

Lemma go_int_add (a b : Z) : go_int (go_int a + b) = go_int (a + b).
Proof.
  apply go_int_mod_eq. rewrite Zplus_mod, wrap_signed_mod, <- Zplus_mod. reflexivity.
Qed.

Lemma go_int_in_range (x : Z) : go_int_range (go_int x).
Proof.
  unfold go_int_range, max_go_int, go_int, wrap_signed.
  pose proof (Z.mod_pos_bound x (2 ^ 64) ltac:(lia)).
  rewrite Z.geb_leb. destruct (Z.leb_spec (2 ^ (64 - 1)) (x mod 2 ^ 64)); lia.
Qed.

Lemma go_int_id (c : Z) : go_int_range c -> go_int c = c.
Proof.
  unfold go_int_range, max_go_int. intros Hc. unfold go_int, wrap_signed.
  destruct (Z_le_gt_dec 0 c) as [Hpos|Hneg].
  - rewrite Z.mod_small by lia.
    rewrite Z.geb_leb. destruct (Z.leb_spec (2 ^ (64 - 1)) c); [lia|reflexivity].
  - assert (Hm : c mod 2 ^ 64 = c + 2 ^ 64).
    { rewrite <- (Z_mod_plus_full c 1). rewrite Z.mul_1_l. apply Z.mod_small. lia. }
    rewrite Hm, Z.geb_leb. destruct (Z.leb_spec (2 ^ (64 - 1)) (c + 2 ^ 64)); lia.
Qed.

Lemma lock_run_app (h : bool) (a b : list TableEvent) :
  lock_run h (a ++ b) = match lock_run h a with Some h' => lock_run h' b | None => None end.
Proof.
  revert h. induction a as [|e a IH]; intros h; [reflexivity|].
  destruct e; cbn; destruct h; try reflexivity; apply IH.
Qed.

Lemma allocs_app (a b : list TableEvent) : allocs (a ++ b) = (allocs a ++ allocs b)%list.
Proof. induction a as [|e a IH]; [reflexivity|]. destruct e; cbn; rewrite ?IH; reflexivity. Qed.

(** The tokens [go_int (c + 1)], ..., [go_int (c + k)]. *)
Definition token_run (c : Z) (k : nat) : list Z :=
  map (fun i => go_int (c + Z.of_nat i)) (seq 1 k).

Lemma map_seq_shift (g : Z -> Z) (s k1 k2 : nat) :
  map (fun i => g (Z.of_nat i)) (seq (s + k1) k2)
  = map (fun i => g (Z.of_nat i + Z.of_nat k1)) (seq s k2).
Proof.
  revert s. induction k2 as [|k2 IH]; intros s; [reflexivity|].
  cbn. rewrite <- IH. f_equal. f_equal. lia.
Qed.

Lemma token_run_app (c : Z) (k1 k2 : nat) :
  (token_run c k1 ++ token_run (go_int (c + Z.of_nat k1)) k2)%list = token_run c (k1 + k2).
Proof.
  unfold token_run. rewrite seq_app, map_app. f_equal.
  replace (1 + k1)%nat with (1 + k1)%nat by reflexivity.
  rewrite (map_seq_shift (fun z => go_int (c + z)) 1 k1 k2).
  apply map_ext. intros i. rewrite go_int_add. f_equal. lia.
Qed.

(** The table-log relation kept by every step of a load: [k] tokens
    allocated in order, every table operation under the lock. *)
Definition table_steps (k : nat) (w w' : World) : Prop :=
  go_int_range (w_next_token w) /\
  exists evs, w_table_log w' = (w_table_log w ++ evs)%list /\
    lock_run false evs = Some false /\
    allocs evs = token_run (w_next_token w) k /\
    w_next_token w' = go_int (w_next_token w + Z.of_nat k).

Lemma table_steps_same (w w' : World) :
  go_int_range (w_next_token w) ->
  w_table_log w' = w_table_log w -> w_next_token w' = w_next_token w -> table_steps 0 w w'.
Proof.
  intros Hr Hl Hn. split; [exact Hr|]. exists [].
  rewrite app_nil_r. split; [exact Hl|]. split; [reflexivity|]. split; [reflexivity|].
  rewrite Z.add_0_r, go_int_id by exact Hr. exact Hn.
Qed.

(** Table operations under the lock that allocate nothing. *)
Lemma table_steps_log (fs : gmap Z GoResolver) (evs : list TableEvent) (w : World) :
  go_int_range (w_next_token w) ->
  lock_run false evs = Some false -> allocs evs = [] ->
  table_steps 0 w (set_table fs (w_next_token w) evs w).
Proof.
  intros Hr Hl Ha. split; [exact Hr|]. exists evs.
  split; [reflexivity|]. split; [exact Hl|]. split; [exact Ha|].
  cbn. rewrite Z.add_0_r, go_int_id by exact Hr. reflexivity.
Qed.

Lemma table_steps_range (k : nat) (w w' : World) :
  table_steps k w w' -> go_int_range (w_next_token w').
Proof. intros (_ & evs & _ & _ & _ & ->). apply go_int_in_range. Qed.

Lemma table_steps_trans (k1 k2 : nat) (w1 w2 w3 : World) :
  table_steps k1 w1 w2 -> table_steps k2 w2 w3 -> table_steps (k1 + k2) w1 w3.
Proof.
  intros (Hr1 & evs1 & Hl1 & Hk1 & Ha1 & Hn1) (_ & evs2 & Hl2 & Hk2 & Ha2 & Hn2).
  split; [exact Hr1|]. exists (evs1 ++ evs2)%list.
  split; [rewrite Hl2, Hl1, app_assoc; reflexivity|].
  split; [rewrite lock_run_app, Hk1; exact Hk2|].
  split.
  - rewrite allocs_app, Ha1, Ha2, Hn1. apply token_run_app.
  - rewrite Hn2, Hn1, go_int_add. f_equal. lia.
Qed.

(** A loader keeps the table discipline. *)
Definition loader_ok (load : Loader) : Prop :=
  forall src nm r w st w', go_int_range (w_next_token w) ->
  load src nm r w = Some (st, w') -> exists k, table_steps k w w'.

Lemma run_action_table (load : Loader) (a : ResolverAction) (w w' : World) (canon : string) (ret : Z) :
  loader_ok load -> go_int_range (w_next_token w) ->
  run_action load a w = Some (canon, ret, w') -> exists k, table_steps k w w'.
Proof.
  intros Hok. revert w. induction a as [canon' st'|src nm r k IH]; intros w Hr H.
  - cbn in H. injection H as _ _ <-. exists 0%nat. apply table_steps_same; auto.
  - cbn in H. destruct (load src nm r w) as [[st w1]|] eqn:El; [|discriminate].
    destruct (Hok _ _ _ _ _ _ Hr El) as [k1 H1].
    destruct (IH st w1 (table_steps_range _ _ _ H1) H) as [k2 H2].
    exists (k1 + k2)%nat. exact (table_steps_trans _ _ _ _ _ H1 H2).
Qed.

Lemma ResolveModule_table (load : Loader) (spec ref : string) (tok : Z) (w w' : World)
    (r0 : option string) (s : Z) :
  loader_ok load -> go_int_range (w_next_token w) ->
  ResolveModule load spec ref tok w = Some (r0, s, w') -> exists k, table_steps k w w'.
Proof.
  intros Hok Hr H.
  assert (H0 : table_steps 0 w (log_table [Lock; Get tok; Unlock] w))
    by (apply table_steps_log; auto).
  destruct (ResolveModule_cases _ _ _ _ _ _ _ _ H) as [(_ & _ & -> & _)|(f & canon & ret & _ & Hra & _)].
  - exists 0%nat. exact H0.
  - destruct (run_action_table _ _ _ _ _ _ Hok (table_steps_range _ _ _ H0) Hra) as [k Hk].
    exists (0 + k)%nat. exact (table_steps_trans _ _ _ _ _ H0 Hk).
Qed.

Lemma LoadModule_c_table (rm : ResolveModuleFn) (eng : V8) (src name : string) (idx : Z)
    (w w' : World) (st : Z) :
  (forall d w0 r0 s w0', go_int_range (w_next_token w0) ->
     rm d name idx w0 = Some (r0, s, w0') -> exists k, table_steps k w0 w0') ->
  go_int_range (w_next_token w) ->
  LoadModule_c rm eng src name idx w = Some (st, w') -> exists k, table_steps k w w'.
Proof.
  intros Hrm Hr H. unfold LoadModule_c in H.
  set (P := fun w0 => exists k, table_steps k w w0).
  assert (Hstep : forall d w0 r0 s w0', P w0 -> rm d name idx w0 = Some (r0, s, w0') -> P w0').
  { intros d w0 r0 s w0' [k1 H1] Hd.
    destruct (Hrm _ _ _ _ _ (table_steps_range _ _ _ H1) Hd) as [k2 H2].
    exists (k1 + k2)%nat. exact (table_steps_trans _ _ _ _ _ H1 H2). }
  assert (HP : P w) by (exists 0%nat; apply table_steps_same; auto).
  destruct (compile_module eng src name) as [tc|m].
  - destruct (printf_line _ w) as [w1|] eqn:Ep; [|discriminate]. injection H as _ <-.
    destruct (printf_line_frame _ _ _ Ep) as (_ & _ & _ & Hn & Hl & _).
    exists 0%nat. apply table_steps_same; auto.
  - destruct (resolve_requests rm (module_requests m) name idx ∅ w) as [[[s|res] w1]|] eqn:Er;
      [| |discriminate].
    + injection H as _ <-. exact (resolve_requests_inv P _ _ _ _ _ _ _ _ Hstep HP Er).
    + destruct (resolve_requests_inv P _ _ _ _ _ _ _ _ Hstep HP Er) as [k1 H1].
      exists (k1 + 0)%nat. eapply table_steps_trans; [exact H1|].
      pose proof (table_steps_range _ _ _ H1) as Hr1.
      destruct (instantiate_module eng m _); cbn in H;
        [destruct (evaluate_module eng m)|].
      * destruct (printf_line _ _) as [w3|] eqn:Ep; [|discriminate]. injection H as _ <-.
        destruct (printf_line_frame _ _ _ Ep) as (_ & _ & _ & Hn & Hl & _).
        apply table_steps_same; [exact Hr1|rewrite Hl; reflexivity|rewrite Hn; reflexivity].
      * injection H as _ <-. apply table_steps_same; auto.
      * injection H as _ <-. apply table_steps_same; auto.
Qed.

(** The Go [LoadModule] allocates at least its own token. *)
Lemma LoadModule_table (fuel : nat) (eng : V8) :
  forall src nm r w st w', go_int_range (w_next_token w) ->
  LoadModule fuel eng src nm r w = Some (st, w') -> exists k, (1 <= k)%nat /\ table_steps k w w'.
Proof.
  induction fuel as [|f IH]; intros src nm r w st w' Hr H; [discriminate|].
  cbn [LoadModule] in H.
  set (t := go_int (w_next_token w + 1)) in H.
  set (w1 := set_table _ t _ w) in H.
  assert (H1 : table_steps 1 w w1).
  { split; [exact Hr|]. exists [Lock; Alloc t; Put t; Unlock].
    split; [reflexivity|]. split; [reflexivity|]. split; reflexivity. }
  assert (Hok : loader_ok (LoadModule f eng)).
  { intros s' n' r' w0 st0 w0' Hr0 Hl. destruct (IH _ _ _ _ _ _ Hr0 Hl) as [k [_ Hk]].
    exists k. exact Hk. }
  destruct (LoadModule_c _ eng src nm (c_int t) w1) as [[rtn w2]|] eqn:EL; [|discriminate].
  injection H as _ <-.
  destruct (LoadModule_c_table _ _ _ _ _ _ _ _
              (fun d w0 r0 s w0' Hr0 Hd => ResolveModule_table _ _ _ _ _ _ _ _ Hok Hr0 Hd)
              (table_steps_range _ _ _ H1) EL) as [k2 H2].
  exists (1 + k2 + 0)%nat. split; [lia|].
  apply (table_steps_trans _ _ _ w2); [exact (table_steps_trans _ _ _ _ _ H1 H2)|].
  apply table_steps_log; [exact (table_steps_range _ _ _ H2)|reflexivity|reflexivity].
Qed.

(** Two loads of a module without dependencies, each with no resolver. *)
Definition two_loads : list (string * string * GoResolver) :=
  [(a_src, "a.js", None); (a_src, "a2.js", None)].

(** Claim C8 (amended). Over a sequence of top-level [LoadModule] calls
    starting from counter [c], the tokens allocated are, in order,
    [go_int (c + 1)], ..., [go_int (c + k)] with at least one per call, and
    while [c + k] stays at most [2^63 - 1] they are exactly [c + 1], ...,
    [c + k]: strictly increasing and above every earlier token. Every table
    operation happens with [resolverTableLock] held, and the lock is free at
    the end. Every call, at any depth, creates its association under the
    lock first, removes it under the lock last, and leaves no entry under
    its token when it returns, whatever its status. *)
Theorem LoadModule_tokens (fuel : nat) (eng : V8) (calls : list (string * string * GoResolver))
    (w w' : World) (sts : list Z) :
  go_int_range (w_next_token w) ->
  LoadModules fuel eng calls w = Some (sts, w') ->
  (exists evs k,
    w_table_log w' = (w_table_log w ++ evs)%list /\
    lock_run false evs = Some false /\
    (length calls <= k)%nat /\
    allocs evs = token_run (w_next_token w) k /\
    w_next_token w' = go_int (w_next_token w + Z.of_nat k) /\
    (w_next_token w + Z.of_nat k <= max_go_int ->
       allocs evs = map (fun i => w_next_token w + Z.of_nat i) (seq 1 k))) /\
  (forall src nm r w1 st w2,
     LoadModule fuel eng src nm r w1 = Some (st, w2) ->
     let t := go_int (w_next_token w1 + 1) in
     w_funcs w2 !! t = None /\
     exists mid, w_table_log w2
       = (w_table_log w1 ++ [Lock; Alloc t; Put t; Unlock] ++ mid ++ [Lock; Del t; Unlock])%list).
Proof.
  intros Hr H. split.
  - assert (Hs : exists k, (length calls <= k)%nat /\ table_steps k w w').
    { revert w sts Hr H. induction calls as [|[[src nm] r] rest IH]; intros w sts Hr H.
      - cbn in H. injection H as _ <-. exists 0%nat. split; [apply Nat.le_0_l|].
        apply table_steps_same; auto.
      - cbn in H. destruct (LoadModule fuel eng src nm r w) as [[st w1]|] eqn:E1; [|discriminate].
        destruct (LoadModules fuel eng rest w1) as [[sts1 w2]|] eqn:E2; [|discriminate].
        injection H as _ <-.
        destruct (LoadModule_table _ _ _ _ _ _ _ _ Hr E1) as [k1 [Hk1 H1]].
        destruct (IH _ _ (table_steps_range _ _ _ H1) E2) as [k2 [Hk2 H2]].
        exists (k1 + k2)%nat. split; [cbn; lia|]. exact (table_steps_trans _ _ _ _ _ H1 H2). }
    destruct Hs as (k & Hk & _ & evs & Hl & Hlock & Ha & Hn).
    exists evs, k. do 5 (split; [assumption|]).
    intros Hmax. rewrite Ha. unfold token_run. apply map_ext_in.
    intros i Hi. apply in_seq in Hi. apply go_int_id.
    unfold go_int_range in *. lia.
  - intros src nm r w1 st w2 HL t.
    destruct fuel as [|f]; [discriminate|].
    cbn [LoadModule] in HL. fold t in HL.
    set (w1' := set_table _ t _ w1) in HL.
    destruct (LoadModule_c _ eng src nm (c_int t) w1') as [[rtn w3]|] eqn:EL; [|discriminate].
    injection HL as _ <-. split; [apply lookup_delete_eq|].
    assert (Hok : loader_ok (LoadModule f eng)).
    { intros s' n' r' w0 st0 w0' Hr0 Hl. destruct (LoadModule_table _ _ _ _ _ _ _ _ Hr0 Hl) as [k [_ Hk]].
      exists k. exact Hk. }
    destruct (LoadModule_c_table _ _ _ _ _ _ _ _
                (fun d w0 r0 s w0' Hr0 Hd => ResolveModule_table _ _ _ _ _ _ _ _ Hok Hr0 Hd)
                (go_int_in_range (w_next_token w1 + 1) : go_int_range (w_next_token w1')) EL) as (k & _ & mid & Hl & _).
    exists mid. cbn. rewrite Hl. cbn. rewrite <- !app_assoc. reflexivity.
Qed.

Lemma LoadModule_tokens_witness :
  match LoadModules 2 demo_engine two_loads empty_world with
  | Some (sts, w') =>
      go_int_range (w_next_token empty_world) /\
      ((exists evs k,
        w_table_log w' = (w_table_log empty_world ++ evs)%list /\
        lock_run false evs = Some false /\
        (length two_loads <= k)%nat /\
        allocs evs = token_run (w_next_token empty_world) k /\
        w_next_token w' = go_int (w_next_token empty_world + Z.of_nat k) /\
        (w_next_token empty_world + Z.of_nat k <= max_go_int ->
           allocs evs = map (fun i => w_next_token empty_world + Z.of_nat i) (seq 1 k))) /\
      (forall src nm r w1 st w2,
         LoadModule 2 demo_engine src nm r w1 = Some (st, w2) ->
         let t := go_int (w_next_token w1 + 1) in
         w_funcs w2 !! t = None /\
         exists mid, w_table_log w2
           = (w_table_log w1 ++ [Lock; Alloc t; Put t; Unlock] ++ mid ++ [Lock; Del t; Unlock])%list))
  | None => False
  end.
Proof.
  destruct (LoadModules 2 demo_engine two_loads empty_world) as [[sts w']|] eqn:E.
  - assert (Hr : go_int_range (w_next_token empty_world))
      by (unfold go_int_range, max_go_int; cbn; lia).
    split; [exact Hr|]. exact (LoadModule_tokens 2 demo_engine two_loads empty_world w' sts Hr E).
  - vm_compute in E. discriminate.
Defined.

(** Claim C8, counterexample to "strictly greater, never reused": the
    counter is a Go [int], so two loads started at [2^63 - 2] allocate
    [2^63 - 1] and then [-2^63]. *)
Lemma LoadModule_tokens_counterexample :
  match LoadModules 2 demo_engine two_loads (set_next_token (2 ^ 63 - 2) empty_world) with
  | Some (_, w') => allocs (w_table_log w') = [9223372036854775807; -9223372036854775808]
  | None => False
  end.
Proof. vm_compute. reflexivity. Qed.

(** * Further properties of the bridge *)

(** ** Console output *)

Lemma string_app_nil_r (s : string) : s +:+ "" = s.
Proof. induction s as [|c s IH]; [reflexivity|]. exact (f_equal (String c) IH). Qed.

Lemma fprint_args_cons (first : bool) (a : string) (rest : list string) :
  fprint_args first (a :: rest)
  = match CopyStringUtf8 a with
    | None => None
    | Some cstr =>
        match fprint_args false rest with
        | None => None
        | Some tail => Some ((if first then "" else " ") +:+ cstr +:+ tail)
        end
    end.
Proof. reflexivity. Qed.

(** With no empty argument, the loop writes the arguments joined by single
    spaces, after a space unless it starts with the first argument. *)
Lemma fprint_args_join (first : bool) (a : string) (args : list string) :
  Forall (fun x => x <> "") (a :: args) ->
  fprint_args first (a :: args)
    = Some ((if first then "" else " ") +:+ String.concat " " (a :: args)).
Proof.
  revert first a. induction args as [|b args IH]; intros first a Hall.
  - apply Forall_cons_1 in Hall as [Ha _]. destruct a as [|c a]; [congruence|].
    rewrite fprint_args_cons. change (CopyStringUtf8 (String c a)) with (Some (String c a)).
    change (fprint_args false []) with (Some "").
    cbv iota. rewrite string_app_nil_r. reflexivity.
  - apply Forall_cons_1 in Hall as [Ha Hall]. destruct a as [|c a]; [congruence|].
    rewrite fprint_args_cons. change (CopyStringUtf8 (String c a)) with (Some (String c a)).
    cbv iota. rewrite (IH false b Hall). reflexivity.
Qed.

(** An empty argument makes the loop crash. *)
Lemma fprint_args_crash (first : bool) (args : list string) :
  Exists (fun x => x = "") args -> fprint_args first args = None.
Proof.
  revert first. induction args as [|a args IH]; intros first Hex;
    [inversion Hex|].
  apply Exists_cons in Hex as [->|Hex]; [reflexivity|].
  rewrite fprint_args_cons. destruct (CopyStringUtf8 a); [|reflexivity].
  rewrite (IH false Hex). reflexivity.
Qed.

(** [V8Engine.print] and [V8Engine.log] write their arguments' string forms
    separated by single spaces and then a newline (only the newline when
    there is no argument), provided no argument is empty.  An empty argument
    gives [fprintf(out, "%s", nullptr)], which crashes: nothing is written
    after it and the call does not return. *)
Theorem Fprint_format (args : list string) (w : World) :
  (Forall (fun a => a <> "") args ->
   Fprint args = Some (String.concat " " args +:+ newline) /\
   Log args = Some (String.concat " " args +:+ newline) /\
   exists w', Print args w = Some w' /\
              w_stdout w' = (w_stdout w ++ [String.concat " " args])%list) /\
  (Exists (fun a => a = "") args ->
   Fprint args = None /\ Log args = None /\ Print args w = None).
Proof.
  split.
  - intros Hall.
    assert (H : fprint_args true args = Some (String.concat " " args)).
    { destruct args as [|a args]; [reflexivity|]. exact (fprint_args_join true a args Hall). }
    unfold Log, Fprint, Print. rewrite H. split; [reflexivity|]. split; [reflexivity|].
    eexists. split; reflexivity.
  - intros Hex. unfold Log, Fprint, Print. rewrite (fprint_args_crash true args Hex).
    repeat split.
Qed.

Lemma Fprint_format_witness :
  Fprint ["1"; "ok"] = Some (String.concat " " ["1"; "ok"] +:+ newline) /\
  Fprint ["1"; ""] = None.
Proof.
  split.
  - assert (Hall : Forall (fun a => a <> "") ["1"; "ok"])
      by (repeat constructor; discriminate).
    exact (proj1 (proj1 (Fprint_format ["1"; "ok"] empty_world) Hall)).
  - assert (Hex : Exists (fun a => a = "") ["1"; ""])
      by (right; left; reflexivity).
    exact (proj1 (proj2 (Fprint_format ["1"; ""] empty_world) Hex)).
Defined.

(** ** Engine.Send *)

(** [Engine.Send] returns [nil] exactly when the C [Send] returned 0.  With
    no callback registered the error is ["expected 0, got 2"] and nothing is
    called; when the callback throws an exception with a non-empty string
    form and a non-empty stack trace it is ["expected 0, got 3"]; when the
    callback is terminated, or the exception's string form or stack trace
    is missing or empty, the C [Send] crashes in [printf] and [Engine.Send]
    does not return. *)
Theorem GoSend_errors (eng : V8) (msg : list Byte.byte) (w : World) :
  (w_cb w = None -> GoSend eng msg w = (Some (Some "expected 0, got 2"), w)) /\
  (forall f v, w_cb w = Some f -> call_function eng f [VBuffer msg] = inr v ->
   GoSend eng msg w = (Some None, record_call f [VBuffer msg] w)) /\
  (forall f tc st, w_cb w = Some f -> call_function eng f [VBuffer msg] = inl tc ->
   caught_terminated tc = false -> caught_exception tc <> "" ->
   caught_stack tc = Some st -> st <> "" ->
   fst (GoSend eng msg w) = Some (Some "expected 0, got 3")) /\
  (forall f tc, w_cb w = Some f -> call_function eng f [VBuffer msg] = inl tc ->
   (caught_terminated tc = true \/ caught_exception tc = "" \/
    caught_stack tc = None \/ caught_stack tc = Some "") ->
   fst (GoSend eng msg w) = None).
Proof.
  unfold GoSend, Send. split; [|split; [|split]].
  - intros ->. cbn -[show_int]. rewrite show_int_2. reflexivity.
  - intros f v Hf Hc. rewrite Hf, Hc. reflexivity.
  - intros f tc st Hf Hc Ht He Hs Hst. rewrite Hf, Hc. unfold ExceptionError. rewrite Ht, Hs.
    destruct (caught_exception tc) as [|a e]; [congruence|].
    destruct st as [|b st]; [congruence|].
    cbn -[show_int]. rewrite show_int_3. reflexivity.
  - intros f tc Hf Hc Hcase. rewrite Hf, Hc. unfold ExceptionError.
    destruct (caught_terminated tc); [reflexivity|].
    destruct Hcase as [Ht|[He|[Hs|Hs]]].
    + discriminate Ht.
    + rewrite He. reflexivity.
    + rewrite Hs. destruct (caught_exception tc); reflexivity.
    + rewrite Hs. destruct (caught_exception tc); reflexivity.
Qed.

Lemma GoSend_errors_witness :
  GoSend demo_engine [Byte.x01] empty_world = (Some (Some "expected 0, got 2"), empty_world) /\
  fst (GoSend demo_engine [Byte.x01] (set_cb (Some 13%nat) empty_world))
    = Some (Some "expected 0, got 3") /\
  fst (GoSend demo_engine [Byte.x01] (set_cb (Some 14%nat) empty_world)) = None.
Proof.
  split; [|split].
  - exact (proj1 (GoSend_errors demo_engine [Byte.x01] empty_world) eq_refl).
  - assert (He : caught_exception cb_error <> "") by discriminate.
    assert (Hs : "Error: cb" <> "") by discriminate.
    exact (proj1 (proj2 (proj2 (GoSend_errors demo_engine [Byte.x01]
                                  (set_cb (Some 13%nat) empty_world))))
             13%nat cb_error "Error: cb" eq_refl eq_refl eq_refl He eq_refl Hs).
  - exact (proj2 (proj2 (proj2 (GoSend_errors demo_engine [Byte.x01]
                                  (set_cb (Some 14%nat) empty_world))))
             14%nat cb_string eq_refl eq_refl (or_intror (or_intror (or_introl eq_refl)))).
Defined.

(** ** Resolver status conversion *)

Lemma c_int_zero (x : Z) : c_int x = 0 <-> x mod 2 ^ 32 = 0.
Proof.
  unfold c_int, wrap_signed. cbv zeta.
  change (2 ^ 32) with 4294967296. change (2 ^ (32 - 1)) with 2147483648.
  assert (Hb : 0 < 4294967296) by lia.
  pose proof (Z.mod_pos_bound x 4294967296 Hb).
  rewrite Z.geb_leb. destruct (Z.leb_spec 2147483648 (x mod 4294967296)); split; intros; lia.
Qed.

(** Whatever the resolver does before answering (nested loads included),
    its answer reaches C through [C.CString] and [C.int], and the loop of the
    C [LoadModule] takes the dependency as answered successfully, going on
    to the registry lookup, exactly when the Go status is a multiple of
    [2^32] (e.g. [4294967296]); otherwise it returns at once with the
    converted status. *)
Theorem ResolveModule_status_c_int (load : Loader) (spec ref : string) (tok : Z) (w w1 : World)
    (f : string -> string -> ResolverAction) (canon : string) (ret : Z)
    (rest : list string) (res0 : gmap string Module) :
  w_funcs w !! tok = Some (Some f) ->
  run_action load (f spec ref) (log_table [Lock; Get tok; Unlock] w) = Some (canon, ret, w1) ->
  ResolveModule load spec ref tok w = Some (Some (c_string canon), c_int ret, w1) /\
  (c_int ret = 0 <-> ret mod 2 ^ 32 = 0) /\
  resolve_requests (ResolveModule load) (spec :: rest) ref tok res0 w
    = if ret mod 2 ^ 32 =? 0 then
        match w_modules w1 !! c_string canon with
        | Some m => resolve_requests (ResolveModule load) rest ref tok (<[spec := m]> res0) w1
        | None => Some (inl 2, w1)
        end
      else Some (inl (c_int ret), w1).
Proof.
  intros Hf Ha.
  assert (HR : ResolveModule load spec ref tok w = Some (Some (c_string canon), c_int ret, w1)).
  { unfold ResolveModule. rewrite Hf. cbv zeta. rewrite Ha. reflexivity. }
  split; [exact HR|]. split; [apply c_int_zero|].
  cbn [resolve_requests]. rewrite HR.
  destruct (Z.eqb_spec (ret mod 2 ^ 32) 0) as [H0|H0].
  - rewrite (proj2 (c_int_zero ret) H0). reflexivity.
  - assert (Hne : c_int ret <> 0) by (intros Hc; apply H0, c_int_zero, Hc).
    rewrite (proj2 (Z.eqb_neq _ _) Hne). reflexivity.
Qed.

Definition big_status : Z := 2 ^ 32.

(** A resolver that loads ["c.js"], then answers ["b.js"] with status [2^32]. *)
Definition loads_c_big_status : string -> string -> ResolverAction :=
  fun _ _ => NestedLoad a_src "c.js" None (fun _ => Answer "b.js" big_status).

Lemma ResolveModule_status_c_int_witness :
  match run_action (LoadModule 2 demo_engine) (loads_c_big_status "b.js" "a.js")
          (log_table [Lock; Get 1; Unlock] (world_tok1 (Some loads_c_big_status) world_with_b)) with
  | Some (canon, ret, w1) =>
      ResolveModule (LoadModule 2 demo_engine) "b.js" "a.js" 1
          (world_tok1 (Some loads_c_big_status) world_with_b)
        = Some (Some (c_string canon), c_int ret, w1) /\
      (c_int ret = 0 <-> ret mod 2 ^ 32 = 0) /\
      resolve_requests (ResolveModule (LoadModule 2 demo_engine)) ["b.js"] "a.js" 1 ∅
          (world_tok1 (Some loads_c_big_status) world_with_b)
        = if ret mod 2 ^ 32 =? 0 then
            match w_modules w1 !! c_string canon with
            | Some m => resolve_requests (ResolveModule (LoadModule 2 demo_engine)) [] "a.js" 1
                          (<["b.js" := m]> ∅) w1
            | None => Some (inl 2, w1)
            end
          else Some (inl (c_int ret), w1)
  | None => False
  end.
Proof.
  destruct (run_action (LoadModule 2 demo_engine) (loads_c_big_status "b.js" "a.js")
              (log_table [Lock; Get 1; Unlock] (world_tok1 (Some loads_c_big_status) world_with_b)))
    as [[[canon ret] w1]|] eqn:E.
  - exact (ResolveModule_status_c_int (LoadModule 2 demo_engine) "b.js" "a.js" 1
             (world_tok1 (Some loads_c_big_status) world_with_b) w1 loads_c_big_status canon ret
             [] ∅ eq_refl E).
  - vm_compute in E. discriminate E.
Defined.

(** A resolver answering status [2^32] for ["b.js"], which is registered:
    the load succeeds. *)
Example LoadModule_big_status :
  option_map fst (LoadModule 3 demo_engine imports_b_src "a.js" (resolve_to "b.js" big_status)
                    world_with_b) = Some 0.
Proof. vm_compute. reflexivity. Qed.

(** ** The resolver table is restored *)

(** Every key of the table is at most [c]. *)
Definition keys_le (c : Z) (fs : gmap Z GoResolver) : Prop :=
  forall k r, fs !! k = Some r -> k <= c.

(** [table_steps], and the table is as before when the counter did not
    overflow and no key was above it. *)
Definition restores (k : nat) (w w' : World) : Prop :=
  table_steps k w w' /\
  (w_next_token w + Z.of_nat k <= max_go_int -> keys_le (w_next_token w) (w_funcs w) ->
   w_funcs w' = w_funcs w).

Lemma restores_same (w w' : World) :
  go_int_range (w_next_token w) ->
  w_table_log w' = w_table_log w -> w_next_token w' = w_next_token w ->
  w_funcs w' = w_funcs w -> restores 0 w w'.
Proof. intros Hr Hl Hn Hf. split; [apply table_steps_same; auto|]. intros _ _. exact Hf. Qed.

Lemma restores_log (evs : list TableEvent) (w : World) :
  go_int_range (w_next_token w) -> lock_run false evs = Some false -> allocs evs = [] ->
  restores 0 w (log_table evs w).
Proof. intros Hr Hl Ha. split; [apply table_steps_log; auto|]. intros _ _. reflexivity. Qed.

Lemma restores_trans (k1 k2 : nat) (w1 w2 w3 : World) :
  restores k1 w1 w2 -> restores k2 w2 w3 -> restores (k1 + k2) w1 w3.
Proof.
  intros [T1 F1] [T2 F2]. split; [exact (table_steps_trans _ _ _ _ _ T1 T2)|].
  intros Hmax Hk.
  destruct T1 as (Hr1 & evs & _ & _ & _ & Hn1).
  assert (Hn : w_next_token w2 = w_next_token w1 + Z.of_nat k1).
  { rewrite Hn1. apply go_int_id. unfold go_int_range in *. lia. }
  assert (E1 : w_funcs w2 = w_funcs w1) by (apply F1; [lia|exact Hk]).
  rewrite <- E1. apply F2.
  - rewrite Hn. lia.
  - rewrite E1, Hn. intros k r Hkr. specialize (Hk k r Hkr). lia.
Qed.

Definition loader_restores (load : Loader) : Prop :=
  forall src nm r w st w', go_int_range (w_next_token w) ->
  load src nm r w = Some (st, w') -> exists k, restores k w w'.

Lemma run_action_restores (load : Loader) (a : ResolverAction) (w w' : World) (canon : string) (ret : Z) :
  loader_restores load -> go_int_range (w_next_token w) ->
  run_action load a w = Some (canon, ret, w') -> exists k, restores k w w'.
Proof.
  intros Hok. revert w. induction a as [canon' st'|src nm r k IH]; intros w Hr H.
  - cbn in H. injection H as _ _ <-. exists 0%nat. apply restores_same; auto.
  - cbn in H. destruct (load src nm r w) as [[st w1]|] eqn:El; [|discriminate].
    destruct (Hok _ _ _ _ _ _ Hr El) as [k1 H1].
    destruct (IH st w1 (table_steps_range _ _ _ (proj1 H1)) H) as [k2 H2].
    exists (k1 + k2)%nat. exact (restores_trans _ _ _ _ _ H1 H2).
Qed.

Lemma ResolveModule_restores (load : Loader) (spec ref : string) (tok : Z) (w w' : World)
    (r0 : option string) (s : Z) :
  loader_restores load -> go_int_range (w_next_token w) ->
  ResolveModule load spec ref tok w = Some (r0, s, w') -> exists k, restores k w w'.
Proof.
  intros Hok Hr H.
  assert (H0 : restores 0 w (log_table [Lock; Get tok; Unlock] w))
    by (apply restores_log; auto).
  destruct (ResolveModule_cases _ _ _ _ _ _ _ _ H) as [(_ & _ & -> & _)|(f & canon & ret & _ & Hra & _)].
  - exists 0%nat. exact H0.
  - destruct (run_action_restores _ _ _ _ _ _ Hok (table_steps_range _ _ _ (proj1 H0)) Hra) as [k Hk].
    exists (0 + k)%nat. exact (restores_trans _ _ _ _ _ H0 Hk).
Qed.

Lemma LoadModule_c_restores (rm : ResolveModuleFn) (eng : V8) (src name : string) (idx : Z)
    (w w' : World) (st : Z) :
  (forall d w0 r0 s w0', go_int_range (w_next_token w0) ->
     rm d name idx w0 = Some (r0, s, w0') -> exists k, restores k w0 w0') ->
  go_int_range (w_next_token w) ->
  LoadModule_c rm eng src name idx w = Some (st, w') -> exists k, restores k w w'.
Proof.
  intros Hrm Hr H. unfold LoadModule_c in H.
  set (P := fun w0 => exists k, restores k w w0).
  assert (Hstep : forall d w0 r0 s w0', P w0 -> rm d name idx w0 = Some (r0, s, w0') -> P w0').
  { intros d w0 r0 s w0' [k1 H1] Hd.
    destruct (Hrm _ _ _ _ _ (table_steps_range _ _ _ (proj1 H1)) Hd) as [k2 H2].
    exists (k1 + k2)%nat. exact (restores_trans _ _ _ _ _ H1 H2). }
  assert (HP : P w) by (exists 0%nat; apply restores_same; auto).
  destruct (compile_module eng src name) as [tc|m].
  - destruct (printf_line _ w) as [w1|] eqn:Ep; [|discriminate]. injection H as _ <-.
    destruct (printf_line_frame _ _ _ Ep) as (_ & _ & Hf & Hn & Hl & _).
    exists 0%nat. apply restores_same; auto.
  - destruct (resolve_requests rm (module_requests m) name idx ∅ w) as [[[s|res] w1]|] eqn:Er;
      [| |discriminate].
    + injection H as _ <-. exact (resolve_requests_inv P _ _ _ _ _ _ _ _ Hstep HP Er).
    + destruct (resolve_requests_inv P _ _ _ _ _ _ _ _ Hstep HP Er) as [k1 H1].
      exists (k1 + 0)%nat. eapply restores_trans; [exact H1|].
      pose proof (table_steps_range _ _ _ (proj1 H1)) as Hr1.
      destruct (instantiate_module eng m _); cbn in H;
        [destruct (evaluate_module eng m)|].
      * destruct (printf_line _ _) as [w3|] eqn:Ep; [|discriminate]. injection H as _ <-.
        destruct (printf_line_frame _ _ _ Ep) as (_ & _ & Hf & Hn & Hl & _).
        apply restores_same;
          [exact Hr1|rewrite Hl; reflexivity|rewrite Hn; reflexivity|rewrite Hf; reflexivity].
      * injection H as _ <-. apply restores_same; auto.
      * injection H as _ <-. apply restores_same; auto.
Qed.

Lemma LoadModule_restores (fuel : nat) (eng : V8) :
  forall src nm r w st w', go_int_range (w_next_token w) ->
  LoadModule fuel eng src nm r w = Some (st, w') -> exists k, (1 <= k)%nat /\ restores k w w'.
Proof.
  induction fuel as [|f IH]; intros src nm r w st w' Hr H; [discriminate|].
  cbn [LoadModule] in H.
  remember (go_int (w_next_token w + 1)) as t eqn:Et.
  remember (set_table (<[t:=r]> (w_funcs w)) t [Lock; Alloc t; Put t; Unlock] w) as w1 eqn:Ew1.
  assert (H1 : table_steps 1 w w1).
  { subst w1. split; [exact Hr|]. exists [Lock; Alloc t; Put t; Unlock].
    split; [reflexivity|]. split; [reflexivity|]. split; [cbn; rewrite Et; reflexivity|].
    cbn. exact Et. }
  assert (Hok : loader_restores (LoadModule f eng)).
  { intros s' n' r' w0 st0 w0' Hr0 Hl. destruct (IH _ _ _ _ _ _ Hr0 Hl) as [k [_ Hk]].
    exists k. exact Hk. }
  destruct (LoadModule_c _ eng src nm (c_int t) w1) as [[rtn w2]|] eqn:EL; [|discriminate].
  injection H as _ <-.
  destruct (LoadModule_c_restores _ _ _ _ _ _ _ _
              (fun d w0 r0 s w0' Hr0 Hd => ResolveModule_restores _ _ _ _ _ _ _ _ Hok Hr0 Hd)
              (table_steps_range _ _ _ H1) EL) as [k2 [T2 F2]].
  exists (1 + k2 + 0)%nat. split; [lia|]. split.
  - apply (table_steps_trans _ _ _ w2); [exact (table_steps_trans _ _ _ _ _ H1 T2)|].
    apply table_steps_log; [exact (table_steps_range _ _ _ T2)|reflexivity|reflexivity].
  - intros Hmax Hk. cbn [w_funcs set_table].
    assert (Ht : t = w_next_token w + 1)
      by (rewrite Et; apply go_int_id; unfold go_int_range in *; lia).
    assert (Hnone : w_funcs w !! t = None).
    { destruct (w_funcs w !! t) as [g|] eqn:Eg; [|reflexivity]. specialize (Hk _ _ Eg). lia. }
    rewrite F2.
    + subst w1. cbn [set_table w_funcs]. apply delete_insert_id. exact Hnone.
    + subst w1. cbn [set_table w_next_token]. lia.
    + subst w1. cbn [set_table w_next_token w_funcs]. intros k g Hkg.
      apply lookup_insert_Some in Hkg as [[<- _]|[_ Hkg]]; [lia|].
      specialize (Hk _ _ Hkg). lia.
Qed.

(** Every [LoadModule] call, nested ones included, leaves the resolver
    table exactly as it found it, provided the token counter does not
    overflow during the call and no registered token is above the counter
    (as holds when every entry came from [LoadModule]). *)
Theorem LoadModule_restores_table (fuel : nat) (eng : V8) (src name : string) (r : GoResolver)
    (w w' : World) (st : Z) :
  go_int_range (w_next_token w) ->
  keys_le (w_next_token w) (w_funcs w) ->
  LoadModule fuel eng src name r w = Some (st, w') ->
  exists k, (1 <= k)%nat /\ w_next_token w' = go_int (w_next_token w + Z.of_nat k) /\
    (w_next_token w + Z.of_nat k <= max_go_int -> w_funcs w' = w_funcs w).
Proof.
  intros Hr Hk H. destruct (LoadModule_restores _ _ _ _ _ _ _ _ Hr H) as (k & Hk1 & T & F).
  exists k. split; [exact Hk1|]. split.
  - destruct T as (_ & evs & _ & _ & _ & Hn). exact Hn.
  - intros Hmax. exact (F Hmax Hk).
Qed.

(** A resolver that loads ["b.js"] itself before answering. *)
Definition nested_resolver : GoResolver :=
  Some (fun _ _ => NestedLoad a_src "b.js" None (fun _ => Answer "b.js" 0)).

Lemma LoadModule_restores_table_witness :
  match LoadModule 3 demo_engine imports_b_src "a.js" nested_resolver empty_world with
  | Some (st, w') =>
      st = 0 /\
      exists k, (1 <= k)%nat /\ w_next_token w' = go_int (w_next_token empty_world + Z.of_nat k) /\
        (w_next_token empty_world + Z.of_nat k <= max_go_int -> w_funcs w' = w_funcs empty_world)
  | None => False
  end.
Proof.
  destruct (LoadModule 3 demo_engine imports_b_src "a.js" nested_resolver empty_world)
    as [[st w']|] eqn:E.
  - split; [vm_compute in E; injection E as <- _; reflexivity|].
    apply (LoadModule_restores_table 3 demo_engine imports_b_src "a.js" nested_resolver
             empty_world w' st).
    + unfold go_int_range, max_go_int. cbn. lia.
    + intros k g Hg. cbn in Hg. rewrite lookup_empty in Hg. discriminate Hg.
    + exact E.
  - vm_compute in E. discriminate E.
Defined.

(** ** Module registration *)

Lemma resolve_requests_complete (rm : ResolveModuleFn) (reqs : list string) (name : string)
    (idx : Z) (res0 : gmap string Module) (w : World) (res : gmap string Module) (w' : World) :
  resolve_requests rm reqs name idx res0 w = Some (inr res, w') ->
  forall d, In d reqs \/ is_Some (res0 !! d) -> is_Some (res !! d).
Proof.
  revert res0 w. induction reqs as [|d0 rest IH]; intros res0 w H d Hd.
  - cbn in H. injection H as <- _. destruct Hd as [[]|Hd]. exact Hd.
  - cbn in H. destruct (rm d0 name idx w) as [[[r0 r1] w1]|]; [|discriminate].
    destruct (negb (r1 =? 0)); [discriminate|].
    destruct (match r0 with Some c => w_modules w1 !! c | None => None end) as [m|]; [|discriminate].
    apply (IH _ _ H). destruct (decide (d = d0)) as [->|Hne].
    + right. rewrite lookup_insert_eq. eexists. reflexivity.
    + destruct Hd as [[Heq|Hin]|Hs]; [congruence|left; exact Hin|].
      right. rewrite lookup_insert_ne by congruence. exact Hs.
Qed.

Lemma resolve_requests_status (rm : ResolveModuleFn) (reqs : list string) (name : string)
    (idx : Z) (res0 : gmap string Module) (w : World) (s : Z) (w' : World) :
  resolve_requests rm reqs name idx res0 w = Some (inl s, w') -> s <> 0.
Proof.
  revert res0 w. induction reqs as [|d0 rest IH]; intros res0 w H; [discriminate|].
  cbn in H. destruct (rm d0 name idx w) as [[[r0 r1] w1]|]; [|discriminate].
  destruct (negb (r1 =? 0)) eqn:Hn.
  - injection H as <- _. apply negb_true_iff, Z.eqb_neq in Hn. exact Hn.
  - destruct (match r0 with Some c => w_modules w1 !! c | None => None end) as [m|].
    + exact (IH _ _ H).
    + injection H as <- _. discriminate.
Qed.

(** The C [LoadModule] registers a module under its name as soon as every
    import has a registered module, before instantiating it: then the status
    is 0, 3 or 4, the module stays registered even when instantiation (3) or
    evaluation (4) fails, and [ResolveCallback] answers each of its import
    specifiers.  Status 0 is only returned in that case. *)
Theorem LoadModule_c_registers (rm : ResolveModuleFn) (eng : V8) (src name : string) (idx : Z)
    (w w' : World) (st : Z) (m : Module) :
  compile_module eng src name = inr m ->
  LoadModule_c rm eng src name idx w = Some (st, w') ->
  ((exists res w1, resolve_requests rm (module_requests m) name idx ∅ w = Some (inr res, w1)) ->
   w_modules w' !! name = Some m /\
   (forall d, In d (module_requests m) -> exists dm, ResolveCallback w' m d = Some dm) /\
   (st = 0 \/ st = 3 \/ st = 4)) /\
  (st = 0 -> exists res w1, resolve_requests rm (module_requests m) name idx ∅ w = Some (inr res, w1)).
Proof.
  intros Hc H. unfold LoadModule_c in H. rewrite Hc in H.
  destruct (resolve_requests rm (module_requests m) name idx ∅ w) as [[[s|res] w1]|] eqn:Er;
    [| |discriminate].
  - injection H as <- <-. split.
    + intros (res & w2 & Hr). discriminate Hr.
    + intros ->. exfalso. exact (resolve_requests_status _ _ _ _ _ _ _ _ Er eq_refl).
  - split; [|intros _; exists res, w1; reflexivity].
    intros _.
    assert (Hreg : forall w2, w_modules w2 = <[name := m]> (w_modules w1) ->
                   w_resolved w2 = <[module_identity m := res]> (w_resolved w1) ->
                   w_modules w2 !! name = Some m /\
                   (forall d, In d (module_requests m) -> exists dm, ResolveCallback w2 m d = Some dm)).
    { intros w2 Hm Hrs. split; [rewrite Hm; apply lookup_insert_eq|].
      intros d Hd. unfold ResolveCallback. rewrite Hrs, lookup_insert_eq.
      destruct (resolve_requests_complete _ _ _ _ _ _ _ _ Er d (or_introl Hd)) as [dm Hdm].
      exists dm. exact Hdm. }
    destruct (instantiate_module eng m _); cbn in H;
      [destruct (evaluate_module eng m)|].
    + destruct (printf_line _ _) as [w3|] eqn:Ep; [|discriminate]. injection H as <- <-.
      destruct (printf_line_frame _ _ _ Ep) as (Hm & Hrs & _).
      destruct (Hreg w3 ltac:(rewrite Hm; reflexivity) ltac:(rewrite Hrs; reflexivity)) as [HA HB].
      split; [exact HA|split; [exact HB|]]. right; right; reflexivity.
    + injection H as <- <-.
      match goal with
      | |- w_modules ?W !! _ = _ /\ _ => destruct (Hreg W eq_refl eq_refl) as [HA HB]
      end.
      split; [exact HA|split; [exact HB|]]. left; reflexivity.
    + injection H as <- <-.
      match goal with
      | |- w_modules ?W !! _ = _ /\ _ => destruct (Hreg W eq_refl eq_refl) as [HA HB]
      end.
      split; [exact HA|split; [exact HB|]]. right; left; reflexivity.
Qed.

Definition world_b_tok1 : World := world_tok1 (resolve_to "b.js" 0) world_with_b.

Lemma LoadModule_c_registers_witness :
  match LoadModule_c (ResolveModule (LoadModule 2 demo_engine)) demo_engine imports_b_src "a.js" 1
          world_b_tok1 with
  | Some (st, w') =>
      st = 0 /\ w_modules w' !! "a.js" = Some imports_b_module /\
      exists dm, ResolveCallback w' imports_b_module "b.js" = Some dm
  | None => False
  end.
Proof.
  destruct (LoadModule_c (ResolveModule (LoadModule 2 demo_engine)) demo_engine imports_b_src "a.js" 1
              world_b_tok1) as [[st w']|] eqn:E.
  - assert (Hc : compile_module demo_engine imports_b_src "a.js" = inr imports_b_module)
      by reflexivity.
    assert (Hst : st = 0) by (vm_compute in E; injection E as <- _; reflexivity).
    destruct (LoadModule_c_registers _ _ _ _ _ _ _ _ _ Hc E) as [Hreg Hzero].
    destruct (Hreg (Hzero Hst)) as (Hm & Hrc & _).
    split; [exact Hst|]. split; [exact Hm|]. apply Hrc. left. reflexivity.
  - vm_compute in E. discriminate E.
Defined.

(** ** Outcomes of Engine.Run *)

(** The exception caught by [Run(ctx, source, _)], from compilation or
    from running the compiled script. *)
Definition run_failure (eng : V8) (source : string) (tc : Caught) : Prop :=
  compile_script eng source source = inl tc \/
  exists sc, compile_script eng source source = inr sc /\ run_script eng sc = inl tc.

Lemma ExceptionError_msg_some (tc : Caught) :
  is_Some (err_msg (ExceptionError tc)) <->
  caught_terminated tc = true \/ caught_exception tc <> "".
Proof.
  unfold ExceptionError. destruct (caught_terminated tc).
  - cbn. split; [intros _; left; reflexivity|intros _; eexists; reflexivity].
  - cbn. destruct (caught_exception tc) as [|c s]; cbn.
    + split; [intros [x Hx]; discriminate Hx|intros [H|H]; [discriminate H|congruence]].
    + split; [intros _; right; discriminate|intros _; eexists; reflexivity].
Qed.

Lemma getError_some (rtn : RtnValue) : is_Some (getError rtn) <-> is_Some (err_msg (rtn_error rtn)).
Proof.
  unfold getError. destruct (err_msg (rtn_error rtn)).
  - split; intros _; eexists; reflexivity.
  - split; intros [x Hx]; discriminate Hx.
Qed.

(** [Engine.Run] returns a value exactly when the script compiles and runs;
    it returns an error exactly when it fails with a termination or an
    exception whose string form is not empty; it never returns both. *)
Theorem GoRun_outcome (eng : V8) (source origin : string) (w : World) :
  let '((v, e), _) := GoRun eng source origin w in
  (is_Some v <-> exists sc jv, compile_script eng source source = inr sc /\ run_script eng sc = inr jv) /\
  (is_Some e <-> exists tc, run_failure eng source tc /\
                            (caught_terminated tc = true \/ caught_exception tc <> "")) /\
  ~ (is_Some v /\ is_Some e).
Proof.
  unfold GoRun, Run, run_failure.
  destruct (compile_script eng source source) as [tc|sc] eqn:Ec.
  - cbn [getValue rtn_value]. split; [split; [intros [x Hx]; discriminate Hx|
                                              intros (sc & jv & Hs & _); discriminate Hs]|].
    split; [|intros [[x Hx] _]; discriminate Hx].
    rewrite getError_some. cbn [rtn_error]. rewrite ExceptionError_msg_some.
    split; [intros Hcond; exists tc; split; [left; reflexivity|exact Hcond]|].
    intros (tc' & [Hc|(sc & Hc & _)] & Hcond); [injection Hc as <-; exact Hcond|discriminate Hc].
  - destruct (run_script eng sc) as [tc|jv] eqn:Er.
    + cbn [getValue rtn_value]. split; [split; [intros [x Hx]; discriminate Hx|
                                                intros (sc' & jv & Hs & Hj)]|].
      { injection Hs as <-. rewrite Er in Hj. discriminate Hj. }
      split; [|intros [[x Hx] _]; discriminate Hx].
      rewrite getError_some. cbn [rtn_error]. rewrite ExceptionError_msg_some.
      split; [intros Hcond; exists tc; split; [right; exists sc; split; [reflexivity|exact Er]|exact Hcond]|].
      intros (tc' & [Hc|(sc' & Hc & Hr)] & Hcond); [discriminate Hc|].
      injection Hc as <-. rewrite Er in Hr. injection Hr as <-. exact Hcond.
    + cbn. split; [split; [intros _; exists sc, jv; split; first [exact Ec | exact Er | reflexivity]|intros _; eexists; reflexivity]|].
      split; [|intros [_ [x Hx]]; discriminate Hx].
      split; [intros [x Hx]; discriminate Hx|].
      intros (tc & [Hc|(sc' & Hc & Hr)] & _); [discriminate Hc|].
      injection Hc as <-. rewrite Er in Hr. discriminate Hr.
Qed.

(** A script failure caught as a termination gives the fixed message, an
    empty [Location] and an empty [StackTrace], and no value. *)
Theorem GoRun_terminated (eng : V8) (source origin : string) (w : World) (tc : Caught) :
  run_failure eng source tc -> caught_terminated tc = true ->
  fst (GoRun eng source origin w)
    = (None, Some {| Message_ := terminated_message; Location := ""; StackTrace := "" |}).
Proof.
  intros [Hc|(sc & Hc & Hr)] Ht; unfold GoRun, Run; rewrite Hc; [|rewrite Hr];
    cbn; unfold getError, ExceptionError; rewrite Ht; reflexivity.
Qed.

(** An engine whose scripts are all stopped by [TerminateExecution]. *)
Definition terminated_caught : Caught :=
  {| caught_terminated := true; caught_exception := "null";
     caught_message := None; caught_stack := None |}.

Definition terminating_engine : V8 :=
  {| compile_script := compile_script demo_engine;
     run_script := fun _ => inl terminated_caught;
     compile_module := compile_module demo_engine;
     instantiate_module := instantiate_module demo_engine;
     evaluate_module := evaluate_module demo_engine;
     call_function := call_function demo_engine |}.

Lemma GoRun_terminated_witness :
  run_failure terminating_engine "while (true) {}" terminated_caught /\
  fst (GoRun terminating_engine "while (true) {}" "loop.js" empty_world)
    = (None, Some {| Message_ := terminated_message; Location := ""; StackTrace := "" |}).
Proof.
  assert (Hf : run_failure terminating_engine "while (true) {}" terminated_caught).
  { right. eexists. split; reflexivity. }
  split; [exact Hf|].
  exact (GoRun_terminated terminating_engine "while (true) {}" "loop.js" empty_world
           terminated_caught Hf eq_refl).
Defined.

(** ** Value strings *)

Lemma GoString_CopyStringUtf8 (s : string) : GoString (CopyStringUtf8 s) = s.
Proof. destruct s; reflexivity. Qed.

(** [Value.String] of a value returned by [Run] is the string form of the
    script's result, the empty string included ([ValueToString] gives
    [nullptr] for it and [C.GoString] maps that to [""]). *)
Theorem Value_String_after_Run (to_utf8 : JSValue -> string) (eng : V8) (source origin : string)
    (w : World) (sc : Script) (jv : JSValue) :
  compile_script eng source source = inr sc ->
  run_script eng sc = inr jv ->
  exists v w', GoRun eng source origin w = ((Some v, None), w') /\
               Value_String to_utf8 v w' = Some (to_utf8 jv).
Proof.
  intros Hc Hr. unfold GoRun, Run. rewrite Hc, Hr. cbn.
  eexists _, _. split; [reflexivity|].
  unfold Value_String, ValueToString. cbn. rewrite lookup_insert_eq. cbn.
  rewrite GoString_CopyStringUtf8. reflexivity.
Qed.

Definition demo_utf8 (v : JSValue) : string :=
  match v with VOther s => s | VFun _ => "function" | VBuffer _ => "[object ArrayBuffer]" end.

Lemma Value_String_after_Run_witness :
  exists v w', GoRun demo_engine "1+1" "t.js" empty_world = ((Some v, None), w') /\
               Value_String demo_utf8 v w' = Some "2".
Proof.
  exact (Value_String_after_Run demo_utf8 demo_engine "1+1" "t.js" empty_world
           {| script_source := "1+1"; script_origin := "1+1" |} (VOther "2") eq_refl eq_refl).
Defined.

(** ** Formatting errors of Engine.Run *)

(** For a script failing with a non-empty exception (not a termination),
    the error returned by [Engine.Run] reads as the exception through
    [Error()], [%v] and [%s]; [%+v] writes the stack trace when the engine
    supplied a non-empty one and the exception otherwise; [%q] quotes the
    exception; every other verb writes nothing. *)
Theorem GoRun_error_Format (quote : string -> string) (eng : V8) (source origin : string)
    (w : World) (tc : Caught) :
  run_failure eng source tc -> caught_terminated tc = false -> caught_exception tc <> "" ->
  exists e, snd (fst (GoRun eng source origin w)) = Some e /\
    JSError_Error e = caught_exception tc /\
    JSError_Format quote e false 118 = caught_exception tc /\
    JSError_Format quote e true 118
      = match caught_stack tc with
        | Some s => if String.eqb s "" then caught_exception tc else s
        | None => caught_exception tc
        end /\
    (forall plus, JSError_Format quote e plus 115 = caught_exception tc) /\
    (forall plus, JSError_Format quote e plus 113 = quote (caught_exception tc)) /\
    (forall plus verb, verb <> 118 -> verb <> 115 -> verb <> 113 ->
       JSError_Format quote e plus verb = "").
Proof.
  intros Hf Ht Hne.
  assert (Herr : snd (fst (GoRun eng source origin w)) = getError
            {| rtn_value := None; rtn_error := ExceptionError tc |}).
  { destruct Hf as [Hc|(sc & Hc & Hr)]; unfold GoRun, Run; rewrite Hc; [|rewrite Hr]; reflexivity. }
  rewrite Herr. unfold getError, ExceptionError. cbn [rtn_error]. rewrite Ht.
  destruct (caught_exception tc) as [|c s] eqn:Ee; [congruence|].
  cbn. eexists. split; [reflexivity|].
  unfold JSError_Error, JSError_Format. cbn [Message_ StackTrace].
  split; [reflexivity|]. split; [reflexivity|]. split.
  - destruct (caught_stack tc) as [[|c' s']|]; reflexivity.
  - split; [intros plus; reflexivity|]. split; [intros plus; reflexivity|].
    intros plus verb H1 H2 H3.
    rewrite (proj2 (Z.eqb_neq _ _) H1), (proj2 (Z.eqb_neq _ _) H2), (proj2 (Z.eqb_neq _ _) H3).
    reflexivity.
Qed.

Definition boom_stack : string := "Error: boom" +:+ "    at " +:+ boom_src +:+ ":1:7".

Definition boom_caught : Caught :=
  {| caught_terminated := false; caught_exception := "Error: boom";
     caught_message := Some {| msg_resource := boom_src; msg_line := Some 1;
                               msg_start_column := Some 0 |};
     caught_stack := Some boom_stack |}.

Lemma GoRun_error_Format_witness :
  exists e, snd (fst (GoRun demo_engine boom_src "test.js" empty_world)) = Some e /\
    JSError_Format (fun s => s) e true 118 = boom_stack /\
    JSError_Format (fun s => s) e false 118 = "Error: boom".
Proof.
  assert (Hf : run_failure demo_engine boom_src boom_caught).
  { right. eexists. split; [reflexivity|]. vm_compute. reflexivity. }
  destruct (GoRun_error_Format (fun s => s) demo_engine boom_src "test.js" empty_world boom_caught
              Hf eq_refl ltac:(discriminate)) as (e & He & _ & Hv & Hpv & _).
  exists e. split; [exact He|]. split.
  - rewrite Hpv. vm_compute. reflexivity.
  - exact Hv.
Defined.

(** ** Disposing a value twice in C *)

(** The C [DisposeValue] frees the [m_value]; calling it again on the same
    pointer reads freed memory.  Only the Go finalizer, which nils its
    pointer, makes a second disposal harmless: finalizing the handle
    disposes the value once and gives a nil handle, and finalizing that
    again changes nothing. *)
Theorem DisposeValue_twice (p : Z) (w w' : World) (val : MValue) :
  w_values w !! p = Some val -> mv_has_context val = true ->
  DisposeValue (Some p) w = Some w' ->
  w_values w' !! p = None /\ DisposeValue (Some p) w' = None /\
  Value_finalizer {| gv_ptr := Some p |} w = Some ({| gv_ptr := None |}, w') /\
  Value_finalizer {| gv_ptr := None |} w' = Some ({| gv_ptr := None |}, w').
Proof.
  intros Hv Hc H.
  assert (Hf : Value_finalizer {| gv_ptr := Some p |} w = Some ({| gv_ptr := None |}, w'))
    by (unfold Value_finalizer; cbn [gv_ptr]; rewrite H; reflexivity).
  unfold DisposeValue in H. rewrite Hv, Hc in H. cbn in H.
  injection H as <-. unfold DisposeValue. cbn. rewrite lookup_delete_eq.
  split; [reflexivity|]. split; [reflexivity|]. split; [exact Hf|reflexivity].
Qed.

Lemma DisposeValue_twice_witness :
  match DisposeValue (Some 1) (snd (GoRun demo_engine "1+1" "t.js" empty_world)) with
  | Some w' =>
      DisposeValue (Some 1) w' = None /\
      Value_finalizer {| gv_ptr := Some 1 |} (snd (GoRun demo_engine "1+1" "t.js" empty_world))
        = Some ({| gv_ptr := None |}, w') /\
      Value_finalizer {| gv_ptr := None |} w' = Some ({| gv_ptr := None |}, w')
  | None => False
  end.
Proof.
  destruct (DisposeValue (Some 1) (snd (GoRun demo_engine "1+1" "t.js" empty_world))) as [w'|] eqn:E.
  - exact (proj2 (DisposeValue_twice 1 (snd (GoRun demo_engine "1+1" "t.js" empty_world)) w'
                    {| mv_ptr := Some (VOther "2"); mv_has_context := true |} eq_refl eq_refl E)).
  - vm_compute in E. discriminate E.
Defined.
